(** * blockMeshPlot.py: the vertex scanner and the duplicate grouper

    A shallow embedding of [parse_blockmesh_dict], of the grouping and
    labelling part of [create_interactive_viewer] and of the control flow
    of [main], followed by the properties proved about them.

    Conventions of the model.
    - A Python [str] is a list of Unicode code points ([N]).
    - The four regular expressions of the source are written with a small
      library of backtracking matchers ("list of successes"); the order of
      the list is the order in which Python's [re] tries the alternatives,
      so the head of the list is the match that [re] reports.
    - A Python [float] and a NumPy [float64] are IEEE 754 binary64 numbers,
      with the arithmetic of [SpecFloat] at precision 53 and exponent bound
      1024: every operation rounds to nearest, ties to even, and overflows
      to an infinity. [float(s)] is the binary64 number nearest to the
      decimal value, and [np.round] is rounding to the nearest integer, ties
      to even.
    - A raised exception is a value of a sum type. *)

From Stdlib Require Import Ascii String DecimalString.
From Stdlib Require Import List Bool Arith NArith ZArith QArith Qabs Lia.
From Stdlib Require Import DecimalNat SpecFloat.
From Stdlib Require Import Sorting.Sorted Sorting.Permutation.
Import ListNotations.

Set Implicit Arguments.
Close Scope Q_scope.
Open Scope nat_scope.

(* ================================================================== *)
(** * Text and character classes *)
(* ================================================================== *)

Module Text.

(** A code point. *)
Definition char := N.
Definition text := list char.

(** The code points of an ASCII literal of this file. *)
Fixpoint of_string (s : string) : text :=
  match s with
  | EmptyString => []
  | String a r => N_of_ascii a :: of_string r
  end.

Definition LF : char := 10%N.

(** [\s] of a [str] pattern: the code points for which [str.isspace]
    holds. *)
Definition is_space (c : char) : bool :=
  ((9 <=? c) && (c <=? 13) || (28 <=? c) && (c <=? 32)
   || (c =? 133) || (c =? 160) || (c =? 5760)
   || (8192 <=? c) && (c <=? 8202)
   || (c =? 8232) || (c =? 8233) || (c =? 8239) || (c =? 8287)
   || (c =? 12288))%N.

(** [[0-9]] *)
Definition is_digit (c : char) : bool := ((48 <=? c) && (c <=? 57))%N.
(** [[-+]] *)
Definition is_sign (c : char) : bool := ((c =? 45) || (c =? 43))%N.
(** [\.] *)
Definition is_dot (c : char) : bool := (c =? 46)%N.
(** [[eE]] *)
Definition is_exp (c : char) : bool := ((c =? 101) || (c =? 69))%N.
(** [.] without [re.DOTALL]: anything but a line feed. *)
Definition not_newline (c : char) : bool := negb (c =? LF)%N.
(** [.] with [re.DOTALL]. *)
Definition any_char (_ : char) : bool := true.

End Text.
Import Text.

(* ================================================================== *)
(** * Backtracking matchers *)
(* ================================================================== *)

Module Re.

(** A matcher tried at the head of [s] gives every way it can match there,
    each with a value and the text left, in the order [re] explores. *)
Definition t (A : Type) := text -> list (A * text).

Definition ret {A} (a : A) : t A := fun s => [(a, s)].

Definition bind {A B} (m : t A) (f : A -> t B) : t B :=
  fun s => flat_map (fun ar => f (fst ar) (snd ar)) (m s).

Declare Scope re_scope.
Delimit Scope re_scope with re.
Notation "x <- m ;; k" := (bind m (fun x => k))
  (at level 61, m at next level, right associativity) : re_scope.
Notation "m ;;; k" := (bind m (fun _ => k))
  (at level 61, right associativity) : re_scope.
Local Open Scope re_scope.

(** One character of a class. *)
Definition one (p : char -> bool) : t char :=
  fun s => match s with
           | c :: r => if p c then [(c, r)] else []
           | [] => []
           end.

(** A literal. *)
Fixpoint lit (l : text) : t unit :=
  match l with
  | [] => ret tt
  | a :: l' => one (N.eqb a) ;;; lit l'
  end.

Definition cons_fst {B} (c : char) (x : text * B) : text * B :=
  (c :: fst x, snd x).

(** [p*], greedy: the longest run first, then shorter ones. *)
Fixpoint star (p : char -> bool) (s : text) : list (text * text) :=
  match s with
  | c :: r => if p c then map (cons_fst c) (star p r) ++ [([], s)]
              else [([], s)]
  | [] => [([], [])]
  end.

(** [p*?], lazy: the empty run first, then longer ones. *)
Fixpoint star_lazy (p : char -> bool) (s : text) : list (text * text) :=
  match s with
  | c :: r => ([], s) :: (if p c then map (cons_fst c) (star_lazy p r)
                          else [])
  | [] => [([], [])]
  end.

(** [p+], greedy. *)
Definition plus (p : char -> bool) : t text :=
  c <- one p ;; cs <- star p ;; ret (c :: cs).

(** [m?], greedy: with [m] first, without it second. *)
Definition opt {A} (m : t A) : t (option A) :=
  fun s => map (fun ar => (Some (fst ar), snd ar)) (m s) ++ [(None, s)].

(** A capturing group: the text that [m] consumed. *)
Definition capture {A} (m : t A) : t text :=
  fun s => map (fun ar => (firstn (length s - length (snd ar)) s, snd ar))
               (m s).

(** The match [re] reports at the head of [s], if any. *)
Definition first_match {A} (m : t A) (s : text) : option (A * text) :=
  hd_error (m s).

(** [re.search]: the match at the leftmost position that has one. *)
Fixpoint search {A} (m : t A) (s : text) : option (A * text) :=
  match first_match m s with
  | Some r => Some r
  | None => match s with
            | [] => None
            | _ :: s' => search m s'
            end
  end.

(** The scan shared by [re.sub] and [re.findall] for a pattern that cannot
    match the empty string: [skip] characters of the current match are
    still to be passed over. *)
Fixpoint sub_from {A} (m : t A) (skip : nat) (s : text) : text :=
  match s with
  | [] => []
  | c :: r =>
      match skip with
      | S k => sub_from m k r
      | O => match first_match m s with
             | Some (_, rest) => sub_from m (length r - length rest) r
             | None => c :: sub_from m 0 r
             end
      end
  end.

(** [re.sub(m, '', s)] *)
Definition sub_empty {A} (m : t A) (s : text) : text := sub_from m 0 s.

Fixpoint findall_from {A} (m : t A) (skip : nat) (s : text) : list A :=
  match s with
  | [] => []
  | c :: r =>
      match skip with
      | S k => findall_from m k r
      | O => match first_match m s with
             | Some (a, rest) => a :: findall_from m (length r - length rest) r
             | None => findall_from m 0 r
             end
      end
  end.

(** [re.findall(m, s)], the groups of each match. *)
Definition findall {A} (m : t A) (s : text) : list A := findall_from m 0 s.

End Re.
Import Re.
Local Open Scope re_scope.

(* ================================================================== *)
(** * Exceptions *)
(* ================================================================== *)

(** The exceptions the program can meet, each with its message. All of
    them are subclasses of [Exception]. *)
Inductive exn : Type :=
| ValueError (msg : string)
| IndexError (msg : string)
| OSError (msg : string)
| UnicodeDecodeError (msg : string)
| BackendError (msg : string).

(** [str(e)] *)
Definition exn_message (e : exn) : string :=
  match e with
  | ValueError m | IndexError m | OSError m | UnicodeDecodeError m
  | BackendError m => m
  end.

Inductive result (A : Type) : Type :=
| Ok (a : A)
| Raise (e : exn).
Arguments Ok {A} a.
Arguments Raise {A} e.

(* ================================================================== *)
(** * parse_blockmesh_dict *)
(* ================================================================== *)

(* ================================================================== *)
(** * Binary64 numbers *)
(* ================================================================== *)

Module Binary64.

(** A [float] of Python, a [float64] of NumPy. *)
Definition f64 : Type := spec_float.

Definition prec : Z := 53.
Definition emax : Z := 1024.

(** [x / y], [x * y] and [x == y] *)
Definition div (x y : f64) : f64 := SFdiv prec emax x y.
Definition mul (x y : f64) : f64 := SFmul prec emax x y.
Definition eqb (x y : f64) : bool := SFeqb x y.

(** The binary64 number nearest to [digits * 10 ^ e10] for a natural
    number [digits], with the sign given: what [float] returns for a
    decimal literal, an infinity when the value is too large, a zero when
    it is too small. *)
Definition of_decimal (neg : bool) (digits e10 : Z) : f64 :=
  match digits with
  | Zpos m =>
      if (0 <=? e10)%Z then
        binary_round prec emax neg (m * Z.to_pos (10 ^ e10)) 0
      else
        let '(q, e, l) :=
          SFdiv_core_binary prec emax (Zpos m) 0 (10 ^ (- e10)) 0 in
        binary_round_aux prec emax neg q e l
  | _ => S754_zero neg
  end.

(** The integer nearest to [m / d], the even one of the two when [m / d]
    lies half way, for [d] positive. *)
Definition round_half_even (m d : Z) : Z :=
  let q := (m / d)%Z in
  match (2 * (m mod d) ?= d)%Z with
  | Lt => q
  | Gt => (q + 1)%Z
  | Eq => if Z.even q then q else (q + 1)%Z
  end.

(** [np.round] on one number: to the nearest integer, ties to even; the
    sign is kept, so that a small negative number gives [-0.0]. *)
Definition rint (x : f64) : f64 :=
  match x with
  | S754_finite s m e =>
      if (0 <=? e)%Z then x
      else match round_half_even (Zpos m) (2 ^ (- e)) with
           | Zpos n => binary_round prec emax s n 0
           | _ => S754_zero s
           end
  | _ => x
  end.

(** The number a finite [float] stands for. *)
Definition value (x : f64) : option Q :=
  match x with
  | S754_zero _ => Some 0%Q
  | S754_finite s m e =>
      let mag := (inject_Z (Zpos m) * Qpower (2 # 1) e)%Q in
      Some (if s then - mag else mag)%Q
  | _ => None
  end.

End Binary64.
Import Binary64.

(** A vertex, one row of the array [vertices]. *)
Definition coord : Type := f64 * f64 * f64.

Module Parse.

(** A literal of the source as text. *)
Definition txt (s : string) : text := of_string s.
Arguments txt s%_string.

(** [r'//.*'] *)
Definition line_comment : Re.t unit :=
  lit (txt "//") ;;; star not_newline ;;; ret tt.

(** [r'/\*.*?\*/'] with [re.DOTALL] *)
Definition block_comment : Re.t unit :=
  lit (txt "/*") ;;; star_lazy any_char ;;; lit (txt "*/").

(** [r'vertices\s*\((.*?)\);'] with [re.DOTALL]; the value is group 1. *)
Definition vertices_section : Re.t text :=
  lit (txt "vertices") ;;; star is_space ;;; lit (txt "(") ;;;
  body <- star_lazy any_char ;; lit (txt ");") ;;; ret body.

(** [(?:[eE][-+]?[0-9]+)] *)
Definition exponent : Re.t unit :=
  one is_exp ;;; opt (one is_sign) ;;; plus is_digit ;;; ret tt.

(** [[-+]?[0-9]*\.?[0-9]+(?:[eE][-+]?[0-9]+)?] *)
Definition number : Re.t unit :=
  opt (one is_sign) ;;; star is_digit ;;; opt (one is_dot) ;;;
  plus is_digit ;;; opt exponent ;;; ret tt.

(** [coord_pattern]: [\(\s*(N)\s+(N)\s+(N)\s*\)] where [N] is [number];
    the value is the triple of groups that [findall] returns. *)
Definition coord_pattern : Re.t (text * text * text) :=
  lit (txt "(") ;;; star is_space ;;;
  x <- capture number ;; plus is_space ;;;
  y <- capture number ;; plus is_space ;;;
  z <- capture number ;; star is_space ;;;
  lit (txt ")") ;;; ret (x, y, z).

(** ** [float(s)] on decimal literals

    The sign, the digits before and after the point and the exponent are
    read off, and the decimal value is rounded to binary64; [None] stands
    for the [ValueError] of [float]. Only the decimal forms are modelled
    (no [inf], [nan], underscores or blanks). *)

Definition digit_value (c : char) : Z := (Z.of_N c - 48)%Z.

Definition digits_value (ds : text) : Z :=
  fold_left (fun acc c => 10 * acc + digit_value c)%Z ds 0%Z.

Fixpoint span (p : char -> bool) (s : text) : text * text :=
  match s with
  | c :: r => if p c then let '(a, b) := span p r in (c :: a, b)
              else ([], s)
  | [] => ([], [])
  end.

(** An optional sign: is it a minus, and the text after it. *)
Definition read_sign (s : text) : bool * text :=
  match s with
  | c :: r => if is_sign c then ((c =? 45)%N, r) else (false, s)
  | [] => (false, s)
  end.

(** The exponent part, to the end of the text. *)
Definition read_exponent (s : text) : option Z :=
  match s with
  | [] => Some 0%Z
  | c :: r =>
      if is_exp c then
        let '(neg, r1) := read_sign r in
        let '(ds, r2) := span is_digit r1 in
        match ds, r2 with
        | _ :: _, [] => Some (if neg then - digits_value ds
                              else digits_value ds)%Z
        | _, _ => None
        end
      else None
  end.

Definition float (s : text) : option f64 :=
  let '(neg, s1) := read_sign s in
  let '(ip, s2) := span is_digit s1 in
  let '(fp, s3) := match s2 with
                   | c :: r => if is_dot c then span is_digit r else ([], s2)
                   | [] => ([], s2)
                   end in
  match ip ++ fp with
  | [] => None
  | m =>
      match read_exponent s3 with
      | None => None
      | Some e =>
          Some (of_decimal neg (digits_value m) (e - Z.of_nat (length fp)))
      end
  end.

(** [[float(x), float(y), float(z)]] for one match. *)
Definition float3 (m : text * text * text) : option coord :=
  let '(x, y, z) := m in
  match float x, float y, float z with
  | Some a, Some b, Some c => Some (a, b, c)
  | _, _, _ => None
  end.

(** The list comprehension over [matches]. *)
Fixpoint floats (ms : list (text * text * text)) : option (list coord) :=
  match ms with
  | [] => Some []
  | m :: r => match float3 m, floats r with
              | Some v, Some vs => Some (v :: vs)
              | _, _ => None
              end
  end.

Definition no_section_msg : string :=
  "Could not find 'vertices' section in blockMeshDict".
Definition no_coords_msg : string := "Could not parse vertex coordinates".
Definition float_msg : string := "could not convert string to float".

(** The two [re.sub] calls. *)
Definition remove_comments (content : text) : text :=
  sub_empty block_comment (sub_empty line_comment content).

(** [parse_blockmesh_dict], from the text that [f.read()] returned. *)
Definition parse_blockmesh_dict (content : text) : result (list coord) :=
  let content := remove_comments content in
  match search vertices_section content with
  | None => Raise (ValueError no_section_msg)
  | Some (vertices_text, _) =>
      match findall coord_pattern vertices_text with
      | [] => Raise (ValueError no_coords_msg)
      | matches =>
          match floats matches with
          | Some vertices => Ok vertices
          | None => Raise (ValueError float_msg)
          end
      end
  end.

End Parse.
Import Parse.

(* ================================================================== *)
(** * The dictionary of index lists *)
(* ================================================================== *)

(** [vertex_groups] is a [defaultdict(list)]: keys in the order of their
    first insertion, each with the list of the indices appended to it. *)
Module Dict.
Section WithKey.

Variable K : Type.
(** [==] on keys (their hashes agree when it holds). *)
Variable keqb : K -> K -> bool.

Definition t : Type := list (K * list nat).

(** [d[k].append(i)] *)
Fixpoint append (k : K) (i : nat) (d : t) : t :=
  match d with
  | [] => [(k, [i])]
  | (k', l) :: d' => if keqb k' k then (k', l ++ [i]) :: d'
                     else (k', l) :: append k i d'
  end.

(** [d.items()] restricted to the index lists. *)
Definition values (d : t) : list (list nat) := map snd d.

End WithKey.
End Dict.

(* ================================================================== *)
(** * create_interactive_viewer: grouping and labels *)
(* ================================================================== *)

Module Viewer.

(** [tolerance = 1e-6], the binary64 number nearest to a millionth:
    [0x1.0c6f7a0b5ed8dp-20]. *)
Definition tolerance : f64 := S754_finite false 4722366482869645 (-72).

(** One axis of [np.round(vertices[i] / tolerance) * tolerance]. *)
Definition quantize (x : f64) : f64 := mul (rint (div x tolerance)) tolerance.

(** [vertex_key = tuple(np.round(vertices[i] / tolerance) * tolerance)] *)
Definition vertex_key (v : coord) : coord :=
  let '(x, y, z) := v in (quantize x, quantize y, quantize z).

(** Equality of two keys as the dictionary sees it: [==] on the tuples,
    of which the components are compared as numbers. The two keys are
    tuples of different turns of the loop, so they are never one object,
    and a key that holds a [nan] equals no key. *)
Definition key_eqb (a b : coord) : bool :=
  let '(ax, ay, az) := a in
  let '(bx, by_, bz) := b in
  eqb ax bx && eqb ay by_ && eqb az bz.

(** The loop [for i in range(len(vertices))], from index [i] on. *)
Fixpoint group_from (i : nat) (vertices : list coord)
    (d : Dict.t coord) : Dict.t coord :=
  match vertices with
  | [] => d
  | v :: rest => group_from (S i) rest (Dict.append key_eqb (vertex_key v) i d)
  end.

Definition vertex_groups (vertices : list coord) : Dict.t coord :=
  group_from 0 vertices [].

(** The first loop over [vertex_groups.items()]: the flag is set when a
    group has more than one index. *)
Definition duplicates_found (groups : Dict.t coord) : bool :=
  fold_left (fun flag kv => if (1 <? length (snd kv))%nat then true else flag)
            groups false.

(** [str(i)] *)
Definition str (i : nat) : string := NilEmpty.string_of_uint (Nat.to_uint i).

Inductive color : Type := red | blue.

(** One call of [ax.text]: the vertex the label is drawn at (the source
    adds the same [offset] to its three axes), the text and the colour. *)
Record label : Type := Label {
  vertex : coord;
  label_text : string;
  label_color : color
}.

(** The body of the second loop for one item. [None] stands for the
    [IndexError] of [indices[0]] or of [vertices[...]]. *)
Definition label_of (vertices : list coord) (indices : list nat)
  : option label :=
  if (1 <? length indices)%nat then
    match indices with
    | [] => None
    | i0 :: _ =>
        match nth_error vertices i0 with
        | None => None
        | Some v => Some (Label v (String.concat "," (map str indices)) red)
        end
    end
  else
    match indices with
    | [] => None
    | i :: _ =>
        match nth_error vertices i with
        | None => None
        | Some v => Some (Label v (str i) blue)
        end
    end.

Fixpoint labels_of (vertices : list coord) (groups : list (list nat))
  : option (list label) :=
  match groups with
  | [] => Some []
  | g :: rest =>
      match label_of vertices g, labels_of vertices rest with
      | Some l, Some ls => Some (l :: ls)
      | _, _ => None
      end
  end.

(** What the function computes before it hands over to the plotting
    backend. *)
Record view : Type := View {
  groups : Dict.t coord;
  has_duplicates : bool;
  labels : list label
}.

Definition index_msg : string :=
  "too many indices for array: array is 1-dimensional, but 2 were indexed".

(** [create_interactive_viewer] up to [plt.show()]. An empty array has one
    dimension, so [vertices[:, 0]] raises at the first statement that
    touches it. *)
Definition create_interactive_viewer (vertices : list coord) : result view :=
  match vertices with
  | [] => Raise (IndexError index_msg)
  | _ =>
      let vertex_groups := vertex_groups vertices in
      let duplicates_found := duplicates_found vertex_groups in
      match labels_of vertices (Dict.values vertex_groups) with
      | None => Raise (IndexError index_msg)
      | Some ls => Ok (View vertex_groups duplicates_found ls)
      end
  end.

End Viewer.
Import Viewer.

(* ================================================================== *)
(** * main *)
(* ================================================================== *)

Module Main.

(** How a run of [main] ends: it returns the exit code handed to
    [sys.exit], or an exception leaves it. *)
Inductive outcome : Type :=
| Return (code : Z)
| Uncaught (e : exn).

Section WithWorld.

(** [open(path, 'r').read()] in the world the program runs in: the text of
    the file, or the exception of [open] or of [read]. *)
Variable read_file : string -> result text.

(** The plotting calls on a computed view: [None] when [plt.show()]
    returns, the exception otherwise. *)
Variable backend : view -> option exn.

(** [parse_blockmesh_dict(filename)], the [with open] included. Its
    [print] calls come after its last [raise], so a call that raises has
    printed nothing. *)
Definition parse_file (filename : string) : result (list coord) :=
  match read_file filename with
  | Raise e => Raise e
  | Ok content => parse_blockmesh_dict content
  end.

(** [main] with [args.input = input]: the lines that [main] itself prints
    and the way it ends. *)
Definition main (input : string) : list string * outcome :=
  match parse_file input with
  | Raise e =>
      ([("Error parsing blockMeshDict: " ++ exn_message e)%string], Return 1)
  | Ok vertices =>
      match create_interactive_viewer vertices with
      | Raise e => ([], Uncaught e)
      | Ok v => match backend v with
                | Some e => ([], Uncaught e)
                | None => ([], Return 0)
                end
      end
  end.

End WithWorld.
End Main.

(* ================================================================== *)
(** * Vocabulary of the properties *)
(* ================================================================== *)

Module Spec.

Definition all (p : char -> bool) (s : text) : Prop :=
  Forall (fun c => p c = true) s.

(** The text does not begin with a character of the class. *)
Definition stops (p : char -> bool) (s : text) : Prop :=
  match s with
  | [] => True
  | c :: _ => p c = false
  end.

(** A signed decimal literal with an optional fraction and exponent, as
    the pattern of the source spells it. *)
Definition sign_part (s : text) : Prop := s = [] \/ s = txt "+" \/ s = txt "-".
Definition dot_part (s : text) : Prop := s = [] \/ s = txt ".".
Definition exponent_part (s : text) : Prop :=
  s = [] \/
  exists e sg ds, s = e :: sg ++ ds /\ is_exp e = true /\ sign_part sg /\
                  all is_digit ds /\ ds <> [].

Definition number_literal (n : text) : Prop :=
  exists sg ip dot fp ex,
    n = sg ++ ip ++ dot ++ fp ++ ex /\
    sign_part sg /\ all is_digit ip /\ dot_part dot /\
    all is_digit fp /\ fp <> [] /\ exponent_part ex.

(** A well-formed triplet: the text [t] of one parenthesis group and its
    three numbers. *)
Definition triplet (t : text) (xyz : text * text * text) : Prop :=
  let '(x, y, z) := xyz in
  exists w0 w1 w2 w3,
    t = txt "(" ++ w0 ++ x ++ w1 ++ y ++ w2 ++ z ++ w3 ++ txt ")" /\
    all is_space w0 /\ all is_space w1 /\ w1 <> [] /\
    all is_space w2 /\ w2 <> [] /\ all is_space w3 /\
    number_literal x /\ number_literal y /\ number_literal z.

(** No well-formed triplet occurs in the text. *)
Definition triplet_free (g : text) : Prop :=
  forall a t b xyz, g = a ++ t ++ b -> ~ triplet t xyz.

(** The text begins with the keyword, blanks and an open parenthesis. *)
Definition opener (s : text) : Prop :=
  exists ws r, s = txt "vertices" ++ ws ++ txt "(" ++ r /\ all is_space ws.

(** [close] does not occur in [body ++ close] before the end of [body]. *)
Definition first_close (close body : text) (tail : text) : Prop :=
  forall b1 r1, b1 ++ close ++ r1 = body ++ close ++ tail ->
                length body <= length b1.

(** The text has a vertices section somewhere. *)
Definition has_section (s : text) : Prop :=
  exists pre ws body tail,
    s = pre ++ txt "vertices" ++ ws ++ txt "(" ++ body ++ txt ");" ++ tail /\
    all is_space ws.

(** The pairs of numbers of which [==] holds: two zeros, two infinities of
    one sign, two finite numbers with the same sign, digits and exponent. *)
Definition same_number (a b : f64) : Prop :=
  match a, b with
  | S754_zero _, S754_zero _ => True
  | S754_infinity s, S754_infinity s' => s = s'
  | S754_finite s m e, S754_finite s' m' e' => s = s' /\ m = m' /\ e = e'
  | _, _ => False
  end.

(** No coordinate of the vertex is a [nan]. *)
Definition no_nan (v : coord) : Prop :=
  let '(x, y, z) := v in x <> S754_nan /\ y <> S754_nan /\ z <> S754_nan.

(** The tolerance as a number: a millionth. *)
Definition epsilon : Q := 1 # 1000000.

(** Two finite numbers differ by less than the tolerance, by more than the
    tolerance. The difference is that of the numbers they stand for, with
    no rounding. *)
Definition closer (a b : f64) : Prop :=
  match value a, value b with
  | Some x, Some y => (Qabs (x - y) < epsilon)%Q
  | _, _ => False
  end.

Definition farther (a b : f64) : Prop :=
  match value a, value b with
  | Some x, Some y => (epsilon < Qabs (x - y))%Q
  | _, _ => False
  end.

(** Two vertices differ by less than the tolerance on every axis. *)
Definition near (a b : coord) : Prop :=
  let '(ax, ay, az) := a in
  let '(bx, by_, bz) := b in
  closer ax bx /\ closer ay by_ /\ closer az bz.

(** Two vertices differ by more than the tolerance on some axis. *)
Definition far (a b : coord) : Prop :=
  let '(ax, ay, az) := a in
  let '(bx, by_, bz) := b in
  farther ax bx \/ farther ay by_ \/ farther az bz.

(** Indices [i] and [j] are members of one group of the dictionary. *)
Definition same_group (d : Dict.t coord) (i j : nat) : Prop :=
  exists k indices, In (k, indices) d /\ In i indices /\ In j indices.

(** [m] can match at the head of [s] leaving [r]. *)
Definition leaves A (m : Re.t A) (s r : text) : Prop :=
  exists a, In (a, r) (m s).

(** The characters a number literal is made of. *)
Definition is_numchar (c : char) : bool :=
  is_sign c || is_digit c || is_dot c || is_exp c.

(** A vertex-bearing span laid out as triplets, each with its text, its
    three numbers and the text up to the next triplet. *)
Definition item : Type := text * (text * text * text) * text.

Definition laid_out (items : list item) : text :=
  flat_map (fun it : item => let '(t, _, g) := it in t ++ g) items.

Definition numbers_of (items : list item) : list (text * text * text) :=
  map (fun it : item => let '(_, xyz, _) := it in xyz) items.

Definition well_formed (it : item) : Prop :=
  let '(t, xyz, g) := it in triplet t xyz /\ triplet_free g.

(** The text is empty or begins with an open parenthesis. *)
Definition at_open (s : text) : Prop :=
  match s with
  | [] => True
  | c :: _ => c = 40%N
  end.

(** The keys of a dictionary are pairwise different. *)
Definition distinct_keys K (keqb : K -> K -> bool) (d : Dict.t K) : Prop :=
  ForallOrdPairs (fun a b => keqb (fst a) (fst b) = false) d.

(** What holds of the dictionary when the loop has dealt with the first
    [n] vertices of [vs]: keys differ; every list is not empty and
    ascending, its key is the key of the vertex of its first index, and it
    holds that index and the indices below [n] whose key equals the list's
    key; every index below [n] is in a list. *)
Definition grouped (vs : list coord) (n : nat) (d : Dict.t coord) : Prop :=
  distinct_keys key_eqb d /\
  (forall k indices, In (k, indices) d ->
     indices <> [] /\ StronglySorted lt indices /\
     (exists v, nth_error vs (hd 0 indices) = Some v /\ k = vertex_key v) /\
     forall j, In j indices <->
               j < n /\ (j = hd 0 indices \/
                         exists v, nth_error vs j = Some v /\
                                   key_eqb k (vertex_key v) = true)) /\
  (forall j, j < n -> exists k indices, In (k, indices) d /\ In j indices).

(** The label [l] is the one of the group [g] of the vertices [vs]: it is
    drawn at the vertex of the first index, which is the least, the
    indices ascend and the text joins them with commas. *)
Definition labelled (vs : list coord) (g : coord * list nat) (l : label)
  : Prop :=
  exists i0 rest,
    snd g = i0 :: rest /\
    StronglySorted lt (snd g) /\
    (forall j, In j (snd g) -> i0 <= j) /\
    nth_error vs i0 = Some (vertex l) /\
    label_text l = String.concat "," (map str (snd g)) /\
    (rest = [] -> label_text l = str i0 /\ label_color l = blue) /\
    (rest <> [] -> label_color l = red).

(** [l] is a prefix of [s]. *)
Fixpoint starts_with (l s : text) : bool :=
  match l, s with
  | [], _ => true
  | a :: l', c :: s' => (a =? c)%N && starts_with l' s'
  | _ :: _, [] => false
  end.

(** [close] begins at one of the first [n] positions of [s]. *)
Fixpoint closes_within (close s : text) (n : nat) : bool :=
  match n with
  | 0 => false
  | S n' => starts_with close s
            || match s with
               | [] => false
               | _ :: s' => closes_within close s' n'
               end
  end.

(** A text cut into plain stretches and comments. *)
Inductive piece : Type :=
| Plain (p : text)
| LineComment (c : text)
| BlockComment (c : text).

Definition slash : char := 47%N.

(** The piece as it stands in the input; a line comment runs to a line
    feed. *)
Definition render_piece (x : piece) : text :=
  match x with
  | Plain p => p
  | LineComment c => txt "//" ++ c ++ [LF]
  | BlockComment c => txt "/*" ++ c ++ txt "*/"
  end.

Definition render (ps : list piece) : text := flat_map render_piece ps.

(** What is left of the piece when its comment is taken away. *)
Definition stripped_piece (x : piece) : text :=
  match x with
  | Plain p => p
  | LineComment _ => [LF]
  | BlockComment _ => []
  end.

Definition stripped (ps : list piece) : text := flat_map stripped_piece ps.

(** Comments that the two substitutions handle: no slash in the plain
    text, no line feed inside a line comment, no slash inside a block
    comment and none right after it. *)
Fixpoint well_commented (ps : list piece) : Prop :=
  match ps with
  | [] => True
  | Plain p :: r => ~ In slash p /\ well_commented r
  | LineComment c :: r => ~ In LF c /\ well_commented r
  | BlockComment c :: r =>
      ~ In slash c /\ stops (N.eqb slash) (render r) /\ well_commented r
  end.

(** The pieces after the first substitution: line comments are gone. *)
Definition after_line_pass (ps : list piece) : text :=
  flat_map (fun x => match x with
                     | LineComment _ => [LF]
                     | _ => render_piece x
                     end) ps.

End Spec.
Import Spec.

(* ================================================================== *)
(** * Sample inputs *)
(* ================================================================== *)

Module Samples.

(** [0.0], [1.0], [2.0], [3.0] and [9.0] *)
Definition fl0 : f64 := S754_zero false.
Definition fl1 : f64 := S754_finite false 4503599627370496 (-52).
Definition fl2 : f64 := S754_finite false 4503599627370496 (-51).
Definition fl3 : f64 := S754_finite false 6755399441055744 (-51).
Definition fl9 : f64 := S754_finite false 5066549580791808 (-49).

(** [4e-07] and [6e-07]: [0x1.ad7f29abcaf48p-22] and
    [0x1.421f5f40d8376p-21]. *)
Definition fl4e7 : f64 := S754_finite false 7555786372591432 (-74).
Definition fl6e7 : f64 := S754_finite false 5666839779443574 (-73).

(** [0.1234555] and [0.1234565]: [0x1.f9ac79702e664p-4] and
    [0x1.f9ad85dfa871ap-4]; and [0.123456]: [0x1.f9acffa7eb6bfp-4]. *)
Definition fl1234555 : f64 := S754_finite false 8895906300749412 (-56).
Definition fl1234565 : f64 := S754_finite false 8895978358343450 (-56).
Definition fl123456 : f64 := S754_finite false 8895942329546431 (-56).

(** Two vertices a fifth of the tolerance apart, on either side of half
    the tolerance. *)
Definition straddling : list coord :=
  [(fl4e7, fl0, fl0); (fl6e7, fl0, fl0)].

(** Two vertices a little more than the tolerance apart, of which the
    quotients by the tolerance are 123455.5 and 123456.5. *)
Definition merged : list coord :=
  [(fl1234555, fl0, fl0); (fl1234565, fl0, fl0)].

(** Ten vertices of which those of index 2, 6 and 9 coincide. *)
Definition ten : list coord :=
  [(fl0, fl0, fl0); (fl1, fl0, fl0); (fl1, fl1, fl0); (fl0, fl1, fl0);
   (fl0, fl0, fl1); (fl1, fl0, fl1); (fl1, fl1, fl0); (fl0, fl1, fl1);
   (fl2, fl0, fl0); (fl1, fl1, fl0)].

(** The text of the example of the specification, laid out. *)
Definition example_items : list item :=
  [(txt "(0 0 0)", (txt "0", txt "0", txt "0"), txt " " ++ [LF]);
   (txt "(1 0 0)", (txt "1", txt "0", txt "0"), txt " ")].

(** An input with two triplets and two block comments, of which the first
    holds two slashes. *)
Definition interleaved_pieces : list piece :=
  [Plain (txt "vertices ( (0 0 0) ");
   BlockComment (txt " a // b ");
   Plain ([LF] ++ txt "(1 0 0) ");
   BlockComment (txt " c ");
   Plain (txt " );")].

(** A world with one file, and a backend that cannot open a display. *)
Definition one_file (name : string) (content : text) : string -> result text :=
  fun path => if String.eqb path name then Ok content
              else Raise (OSError "[Errno 2] No such file or directory").

Definition no_display (_ : view) : option exn :=
  Some (BackendError "cannot connect to display").

(** An input with a block comment over two lines and a line comment. *)
Definition commented_pieces : list piece :=
  [Plain (txt "vertices ( (0 0 0) ");
   BlockComment (txt " (9 9 9)" ++ [LF] ++ txt " (8 8 8) ");
   Plain (txt " ");
   LineComment (txt " (7 7 7) /* not a block comment");
   Plain (txt "(1 0 0) );")].

End Samples.
Import Samples.

(* ================================================================== *)
(** * create_interactive_viewer: the report of the duplicates *)
(* ================================================================== *)

Module Report.

(** What the duplicate check prints, as data: one entry for the four
    lines about a group of two indices or more (the vertex shown, the
    indices, their number), and the closing line or banner. *)
Inductive report_line : Type :=
| Warning (vertex : coord) (indices : list nat) (count : nat)
| Clean
| Detected.

(** The first loop over [vertex_groups.items()]. [None] stands for the
    [IndexError] of [indices[0]] or of [vertices[...]]. *)
Fixpoint warnings (vertices : list coord) (groups : Dict.t coord)
  : option (list report_line) :=
  match groups with
  | [] => Some []
  | (_, indices) :: rest =>
      if 1 <? length indices then
        match indices with
        | [] => None
        | i0 :: _ =>
            match nth_error vertices i0, warnings vertices rest with
            | Some v, Some ws => Some (Warning v indices (length indices) :: ws)
            | _, _ => None
            end
        end
      else warnings vertices rest
  end.


(** The index lists of the warnings of a report, in their order. *)
Definition warned (lines : list report_line) : list (list nat) :=
  flat_map (fun l => match l with
                     | Warning _ indices _ => [indices]
                     | _ => []
                     end) lines.

(** The indices a report names. *)
Definition reported (lines : list report_line) : list nat :=
  flat_map (fun l => match l with
                     | Warning _ indices _ => indices
                     | _ => []
                     end) lines.

(** The first index of every group, in the order of the dictionary. *)
Definition first_indices (d : Dict.t coord) : list nat :=
  map (fun kv : coord * list nat => hd 0 (snd kv)) d.

(** The indices of the groups that the report warns about. *)
Definition duplicated (d : Dict.t coord) : list nat :=
  flat_map (fun kv : coord * list nat =>
              if 1 <? length (snd kv) then snd kv else []) d.

(** A warning shows the vertex of the first index of its group and the
    number of its indices, two at least. *)
Definition warning_ok (vertices : list coord) (l : report_line) : Prop :=
  match l with
  | Warning v indices count =>
      count = length indices /\ 2 <= count /\
      exists i0 rest, indices = i0 :: rest /\ nth_error vertices i0 = Some v
  | _ => False
  end.

End Report.
Import Report.

(* ================================================================== *)
(** * Occurrences of one text in another *)
(* ================================================================== *)

Module Occurs.

(** [pat] occurs nowhere in [t]. *)
Definition lacks (pat t : text) : Prop := forall a b, t <> a ++ pat ++ b.

(** No complete block comment occurs in [t]. *)
Definition lacks_block_comment (t : text) : Prop :=
  forall a c b, t <> a ++ txt "/*" ++ c ++ txt "*/" ++ b.

(** A complete vertices section begins at the head of the text. *)
Definition section_at (s : text) : Prop :=
  exists ws body tail,
    s = txt "vertices" ++ ws ++ txt "(" ++ body ++ txt ");" ++ tail /\
    all is_space ws.

(** The characters of a string are decimal digits. *)
Definition digit_ascii (c : ascii) : bool := is_digit (N_of_ascii c).

Fixpoint all_digits (s : string) : Prop :=
  match s with
  | EmptyString => True
  | String c r => digit_ascii c = true /\ all_digits r
  end.

(** The string is empty or begins with something else than a digit. *)
Definition ends_number (s : string) : Prop :=
  match s with
  | EmptyString => True
  | String c _ => digit_ascii c = false
  end.

End Occurs.
Import Occurs.

(* ================================================================== *)
(** * Facts about the matchers *)
(* ================================================================== *)

Module ReFacts.

Lemma in_bind A B (m : Re.t A) (f : A -> Re.t B) s b r :
  In (b, r) (bind m f s) <->
  exists a mid, In (a, mid) (m s) /\ In (b, r) (f a mid).
Proof.
  unfold bind. rewrite in_flat_map. split.
  - intros [[a mid] [H1 H2]]. exists a, mid. auto.
  - intros (a & mid & H1 & H2). exists (a, mid). auto.
Qed.

Lemma in_ret A (a a' : A) s r : In (a', r) (ret a s) <-> a' = a /\ r = s.
Proof.
  unfold ret. simpl. split.
  - intros [H | []]. inversion H. auto.
  - intros [-> ->]. auto.
Qed.

Lemma in_one p c r s : In (c, r) (one p s) <-> s = c :: r /\ p c = true.
Proof.
  unfold one. destruct s as [| c' s'].
  - simpl. split; [tauto | intros [H _]; discriminate].
  - destruct (p c') eqn:E; simpl.
    + split.
      * intros [H | []]. inversion H. subst. auto.
      * intros [H Hp]. inversion H. auto.
    + split; [tauto |]. intros [H Hp]. inversion H. subst. congruence.
Qed.

Lemma in_lit l u r s : In (u, r) (lit l s) <-> s = l ++ r.
Proof.
  revert s. induction l as [| a l IH]; intros s; cbn [lit app].
  - rewrite in_ret. destruct u. split; [intros [_ ->] | intros ->]; auto.
  - rewrite in_bind. split.
    + intros (c & mid & H1 & H2). apply in_one in H1. destruct H1 as [-> Hc].
      apply N.eqb_eq in Hc. subst c. apply IH in H2. subst mid. reflexivity.
    + intros ->. exists a, (l ++ r). split.
      * apply in_one. split; [reflexivity | apply N.eqb_refl].
      * apply IH. reflexivity.
Qed.

(** A literal matches in at most one way. *)
Lemma lit_app l r : lit l (l ++ r) = [(tt, r)].
Proof.
  induction l as [| a l IH]; simpl; [reflexivity |].
  unfold bind, one. rewrite N.eqb_refl. simpl. rewrite IH. reflexivity.
Qed.

Lemma lit_nil_iff l s : lit l s = [] <-> forall r, s <> l ++ r.
Proof.
  split.
  - intros H r ->. rewrite lit_app in H. discriminate.
  - intros H. destruct (lit l s) as [| [u r] rest] eqn:E; [reflexivity |].
    exfalso. apply (H r). apply (in_lit l u r s). rewrite E. left. reflexivity.
Qed.

Lemma bind_lit_app B l (f : unit -> Re.t B) r :
  bind (lit l) f (l ++ r) = f tt r.
Proof. unfold bind. rewrite lit_app. simpl. apply app_nil_r. Qed.

Lemma bind_nil A B (m : Re.t A) (f : A -> Re.t B) s :
  m s = [] -> bind m f s = [].
Proof. unfold bind. intros ->. reflexivity. Qed.

Lemma flat_map_map_fst A B C (g : A -> B) (f : B -> list C) l :
  flat_map f (map g l) = flat_map (fun x => f (g x)) l.
Proof.
  induction l as [| x l IH]; simpl; [reflexivity |]. rewrite IH. reflexivity.
Qed.

Lemma in_star p cs r s : In (cs, r) (star p s) <-> s = cs ++ r /\ all p cs.
Proof.
  revert cs. induction s as [| c s IH]; intros cs; simpl.
  - split.
    + intros [H | []]. inversion H. split; [reflexivity | constructor].
    + intros [H _]. symmetry in H. apply app_eq_nil in H. destruct H as [-> ->].
      auto.
  - destruct (p c) eqn:E.
    + rewrite in_app_iff, in_map_iff. split.
      * intros [([x r'] & Hx & Hin) | [H | []]].
        -- inversion Hx. subst. apply IH in Hin. destruct Hin as [-> Hall].
           split; [reflexivity | constructor; assumption].
        -- inversion H. split; [reflexivity | constructor].
      * intros [H Hall]. destruct cs as [| c' cs'].
        -- right. left. simpl in H. subst. reflexivity.
        -- left. inversion H. subst. exists (cs', r). split; [reflexivity |].
           apply IH. inversion Hall. auto.
    + simpl. split.
      * intros [H | []]. inversion H. split; [reflexivity | constructor].
      * intros [H Hall]. destruct cs as [| c' cs'].
        -- simpl in H. subst. auto.
        -- inversion H. subst. inversion Hall. congruence.
Qed.

Lemma in_star_lazy p cs r s :
  In (cs, r) (star_lazy p s) <-> s = cs ++ r /\ all p cs.
Proof.
  revert cs. induction s as [| c s IH]; intros cs; simpl.
  - split.
    + intros [H | []]. inversion H. split; [reflexivity | constructor].
    + intros [H _]. symmetry in H. apply app_eq_nil in H. destruct H as [-> ->].
      auto.
  - split.
    + intros [H | H].
      * inversion H. split; [reflexivity | constructor].
      * destruct (p c) eqn:E; [| destruct H].
        apply in_map_iff in H. destruct H as ([x r'] & Hx & Hin).
        inversion Hx. subst. apply IH in Hin. destruct Hin as [-> Hall].
        split; [reflexivity | constructor; assumption].
    + intros [H Hall]. destruct cs as [| c' cs'].
      * left. simpl in H. subst. reflexivity.
      * right. inversion H. subst. inversion Hall as [| ? ? Hc Hall']. subst.
        rewrite Hc. apply in_map_iff. exists (cs', r). split; [reflexivity |].
        apply IH. auto.
Qed.

Lemma in_plus p cs r s :
  In (cs, r) (plus p s) <-> s = cs ++ r /\ all p cs /\ cs <> [].
Proof.
  unfold plus. rewrite in_bind. split.
  - intros (c & mid & H1 & H2). apply in_one in H1. destruct H1 as [-> Hc].
    apply in_bind in H2. destruct H2 as (x & mid' & H2 & H3).
    apply in_star in H2. destruct H2 as [-> Hall].
    apply in_ret in H3. destruct H3 as [-> ->].
    split; [reflexivity |]. split; [constructor; assumption | discriminate].
  - intros (-> & Hall & Hne). destruct cs as [| c cs]; [congruence |].
    inversion Hall; subst. exists c, (cs ++ r). split.
    + apply in_one. auto.
    + apply in_bind. exists cs, r. split.
      * apply in_star. auto.
      * apply in_ret. auto.
Qed.

Lemma in_opt A (m : Re.t A) o r s :
  In (o, r) (opt m s) <->
  (o = None /\ r = s) \/ exists a, o = Some a /\ In (a, r) (m s).
Proof.
  unfold opt. rewrite in_app_iff, in_map_iff. simpl. split.
  - intros [([a r'] & Hx & Hin) | [H | []]].
    + inversion Hx. subst. right. exists a. auto.
    + inversion H. auto.
  - intros [[-> ->] | (a & -> & Hin)].
    + right. left. reflexivity.
    + left. exists (a, r). auto.
Qed.

Lemma in_capture A (m : Re.t A) x r s :
  In (x, r) (capture m s) <->
  exists a, In (a, r) (m s) /\ x = firstn (length s - length r) s.
Proof.
  unfold capture. rewrite in_map_iff. split.
  - intros ([a r'] & Hx & Hin). inversion Hx. subst. exists a. auto.
  - intros (a & Hin & ->). exists (a, r). auto.
Qed.

(** ** Which match comes first *)

(** A greedy run followed by something that cannot start with a character
    of the class: only the whole run survives. *)
Lemma bind_star_stop B p (f : text -> Re.t B) ws r :
  all p ws -> stops p r ->
  (forall x c r', p c = true -> f x (c :: r') = []) ->
  bind (star p) f (ws ++ r) = f ws r.
Proof.
  revert f. induction ws as [| c ws IH]; intros f Hall Hstop Hf.
  - simpl. destruct r as [| c r]; unfold bind; simpl.
    + apply app_nil_r.
    + simpl in Hstop. rewrite Hstop. simpl. apply app_nil_r.
  - inversion Hall as [| ? ? Hc Hall']. subst. unfold bind. simpl. rewrite Hc.
    rewrite flat_map_app, flat_map_map_fst. simpl.
    rewrite (Hf [] c (ws ++ r) Hc). rewrite !app_nil_r.
    apply (IH (fun x => f (c :: x))); auto.
Qed.

(** A lazy run of any characters: the shortest body after which the
    continuation matches is tried first. *)
Lemma bind_star_lazy_first B (f : text -> Re.t B) body rest :
  (forall b1 r1, b1 ++ r1 = body ++ rest -> length b1 < length body ->
                 f b1 r1 = []) ->
  exists more, bind (star_lazy any_char) f (body ++ rest) = f body rest ++ more.
Proof.
  revert f. induction body as [| c body IH]; intros f Hf.
  - simpl. destruct rest as [| c r]; unfold bind; simpl; eauto.
  - unfold bind. simpl. rewrite flat_map_map_fst. simpl.
    rewrite (Hf [] (c :: body ++ rest)); [| reflexivity | simpl; lia].
    simpl. apply (IH (fun x => f (c :: x))).
    intros b1 r1 Heq Hlen. apply Hf; simpl; [congruence | lia].
Qed.

Lemma hd_error_unique A (l : list A) x :
  In x l -> (forall y, In y l -> y = x) -> hd_error l = Some x.
Proof.
  destruct l as [| y l]; [intros [] |]. intros _ H. simpl.
  f_equal. apply H. left. reflexivity.
Qed.

(** ** [search] *)

Lemma search_None A (m : Re.t A) s :
  search m s = None <-> forall a b, s = a ++ b -> m b = [].
Proof.
  induction s as [| c s IH]; simpl; unfold first_match.
  - destruct (m []) eqn:E; simpl.
    + split; [| reflexivity]. intros _ a b H. symmetry in H.
      apply app_eq_nil in H. destruct H as [_ ->]. assumption.
    + split; [discriminate |]. intros H. specialize (H [] [] eq_refl).
      congruence.
  - destruct (m (c :: s)) eqn:E; simpl.
    + rewrite IH. split.
      * intros H a b Hab. destruct a as [| c' a]; simpl in Hab.
        -- subst b. assumption.
        -- inversion Hab. subst. eapply H. reflexivity.
      * intros H a b ->. apply (H (c :: a) b). reflexivity.
    + split; [discriminate |]. intros H. specialize (H [] (c :: s) eq_refl).
      congruence.
Qed.

(** Nothing matches inside [pre]: the search goes on after it. *)
Lemma search_skip A (m : Re.t A) pre s :
  (forall a b, pre = a ++ b -> b <> [] -> m (b ++ s) = []) ->
  search m (pre ++ s) = search m s.
Proof.
  induction pre as [| c pre IH]; intros H; [reflexivity |].
  pose proof (H [] (c :: pre) eq_refl ltac:(discriminate)) as H0.
  cbn [app] in *. cbn [search]. unfold first_match at 1. rewrite H0. simpl.
  apply IH. intros a b -> Hb. apply (H (c :: a) b); auto.
Qed.

Lemma search_here A (m : Re.t A) s r :
  first_match m s = Some r -> search m s = Some r.
Proof. intros H. destruct s; simpl; rewrite H; reflexivity. Qed.

(** What [search] reports is the first match at some position, and no
    position before it has a match. *)
Lemma search_Some A (m : Re.t A) s r :
  search m s = Some r ->
  exists pre b, s = pre ++ b /\ first_match m b = Some r /\
    forall a' b', pre = a' ++ b' -> b' <> [] -> m (b' ++ b) = [].
Proof.
  induction s as [| c s IH]; simpl.
  - destruct (first_match m []) eqn:E; [| discriminate].
    intros H. inversion H. subst. exists [], []. repeat split; auto.
    intros a' b' H1 H2. symmetry in H1. apply app_eq_nil in H1. tauto.
  - destruct (first_match m (c :: s)) eqn:E.
    + intros H. inversion H. subst. exists [], (c :: s). repeat split; auto.
      intros a' b' H1 H2. symmetry in H1. apply app_eq_nil in H1. tauto.
    + intros H. destruct (IH H) as (pre & b & -> & Hm & Hno).
      exists (c :: pre), b. repeat split; auto.
      intros a' b' H1 H2. destruct a' as [| c' a']; simpl in H1.
      * subst b'. simpl. unfold first_match in E.
        destruct (m (c :: pre ++ b)); [reflexivity | discriminate].
      * inversion H1. subst. eapply Hno; eauto.
Qed.

End ReFacts.
Import ReFacts.

(* ================================================================== *)
(** * Facts about the patterns of the parser *)
(* ================================================================== *)

Module ParseFacts.

Lemma space_not_open c : is_space c = true -> (40 =? c)%N = false.
Proof.
  intros H. destruct (N.eqb_spec 40 c) as [<- |]; [discriminate | reflexivity].
Qed.

(** Every way the section pattern matches at the head of a text. *)
Lemma vertices_section_in body tail s :
  In (body, tail) (vertices_section s) <->
  exists ws, all is_space ws /\
    s = txt "vertices" ++ ws ++ txt "(" ++ body ++ txt ");" ++ tail.
Proof.
  unfold vertices_section. rewrite in_bind. split.
  - intros (u & s1 & H1 & H). apply in_lit in H1. subst s.
    apply in_bind in H. destruct H as (ws & s2 & H2 & H).
    apply in_star in H2. destruct H2 as [-> Hws].
    apply in_bind in H. destruct H as (u' & s3 & H3 & H).
    apply in_lit in H3. subst s2.
    apply in_bind in H. destruct H as (b & s4 & H4 & H).
    apply in_star_lazy in H4. destruct H4 as [-> _].
    apply in_bind in H. destruct H as (u'' & s5 & H5 & H).
    apply in_lit in H5. subst s4.
    apply in_ret in H. destruct H as [-> ->].
    exists ws. auto.
  - intros (ws & Hws & ->). exists tt, (ws ++ txt "(" ++ body ++ txt ");" ++ tail).
    split; [apply in_lit; reflexivity |].
    apply in_bind. exists ws, (txt "(" ++ body ++ txt ");" ++ tail).
    split; [apply in_star; auto |].
    apply in_bind. exists tt, (body ++ txt ");" ++ tail).
    split; [apply in_lit; reflexivity |].
    apply in_bind. exists body, (txt ");" ++ tail).
    split; [apply in_star_lazy; split; [reflexivity |] |].
    + clear. induction body; constructor; auto.
    + apply in_bind. exists tt, tail. split; [apply in_lit; reflexivity |].
      apply in_ret. auto.
Qed.

(** Where the text does not begin with an opener the pattern fails. *)
Lemma vertices_section_nil s : ~ opener s -> vertices_section s = [].
Proof.
  intros H. destruct (vertices_section s) as [| [body tail] l] eqn:E; [reflexivity |].
  exfalso. apply H.
  assert (Hin : In (body, tail) (vertices_section s)) by (rewrite E; left; reflexivity).
  apply vertices_section_in in Hin. destruct Hin as (ws & Hws & ->).
  exists ws, (body ++ txt ");" ++ tail). auto.
Qed.

(** At an opener, the body runs to the first [");"] after it. *)
Lemma vertices_section_first ws body tail :
  all is_space ws -> first_close (txt ");") body tail ->
  first_match vertices_section
    (txt "vertices" ++ ws ++ txt "(" ++ body ++ txt ");" ++ tail)
  = Some (body, tail).
Proof.
  intros Hws Hfirst. unfold first_match, vertices_section.
  rewrite bind_lit_app.
  rewrite bind_star_stop; [| assumption | reflexivity |].
  2:{ intros x c r' Hc. apply bind_nil. change (txt "(") with [40%N].
      cbn [lit]. unfold bind, one. rewrite (space_not_open _ Hc).
      reflexivity. }
  rewrite bind_lit_app.
  destruct (@bind_star_lazy_first _
              (fun b => lit (txt ");") ;;; ret b) body (txt ");" ++ tail))
    as [more Hmore].
  - intros b1 r1 Heq Hlen. apply bind_nil. apply lit_nil_iff.
    intros r ->. specialize (Hfirst b1 r Heq). lia.
  - rewrite Hmore. rewrite bind_lit_app. reflexivity.
Qed.

(** ** Recognition, values aside *)

Lemma in_seq A B (m : Re.t A) (k : Re.t B) b r s :
  In (b, r) ((m ;;; k) s) <-> exists mid, leaves m s mid /\ In (b, r) (k mid).
Proof.
  rewrite in_bind. unfold leaves. split.
  - intros (a & mid & H1 & H2). eauto.
  - intros (mid & [a H1] & H2). eauto.
Qed.

Lemma leaves_seq A B (m : Re.t A) (k : Re.t B) s r :
  leaves (m ;;; k) s r <-> exists mid, leaves m s mid /\ leaves k mid r.
Proof.
  unfold leaves at 1. split.
  - intros [b H]. apply in_seq in H. destruct H as (mid & H1 & H2).
    exists mid. split; [assumption | exists b; assumption].
  - intros (mid & H1 & [b H2]). exists b. apply in_seq. eauto.
Qed.

Lemma leaves_ret A (a : A) s r : leaves (ret a) s r <-> r = s.
Proof.
  unfold leaves. split.
  - intros [a' H]. apply in_ret in H. tauto.
  - intros ->. exists a. apply in_ret. auto.
Qed.

Lemma leaves_one p s r : leaves (one p) s r <-> exists c, s = c :: r /\ p c = true.
Proof.
  unfold leaves. split; intros [c H]; exists c; apply in_one; assumption.
Qed.

Lemma leaves_lit l s r : leaves (lit l) s r <-> s = l ++ r.
Proof.
  unfold leaves. split.
  - intros [u H]. apply in_lit in H. assumption.
  - intros H. exists tt. apply in_lit. assumption.
Qed.

Lemma leaves_star p s r : leaves (star p) s r <-> exists cs, s = cs ++ r /\ all p cs.
Proof.
  unfold leaves. split; intros [cs H]; exists cs; apply in_star; assumption.
Qed.

Lemma leaves_plus p s r :
  leaves (plus p) s r <-> exists cs, s = cs ++ r /\ all p cs /\ cs <> [].
Proof.
  unfold leaves. split; intros [cs H]; exists cs; apply in_plus; assumption.
Qed.

Lemma leaves_opt A (m : Re.t A) s r : leaves (opt m) s r <-> r = s \/ leaves m s r.
Proof.
  unfold leaves. split.
  - intros [o H]. apply in_opt in H. destruct H as [[_ ->] | (a & _ & H)]; eauto.
  - intros [-> | [a H]].
    + exists None. apply in_opt. auto.
    + exists (Some a). apply in_opt. eauto.
Qed.

Lemma in_capture_leaves A (m : Re.t A) x r s :
  In (x, r) (capture m s) <->
  leaves m s r /\ x = firstn (length s - length r) s.
Proof.
  rewrite in_capture. unfold leaves. split.
  - intros (a & H & ->). eauto.
  - intros [[a H] ->]. eauto.
Qed.

Lemma firstn_app_exact (n r : text) :
  firstn (length (n ++ r) - length r) (n ++ r) = n.
Proof.
  rewrite length_app. replace (length n + length r - length r) with (length n) by lia.
  rewrite firstn_app, Nat.sub_diag, firstn_all. simpl. apply app_nil_r.
Qed.

(** ** The number pattern *)

Lemma is_sign_iff c : is_sign c = true <-> c = 43%N \/ c = 45%N.
Proof.
  unfold is_sign. rewrite orb_true_iff, !N.eqb_eq. tauto.
Qed.

Lemma leaves_opt_sign s r :
  leaves (opt (one is_sign)) s r <-> exists sg, sign_part sg /\ s = sg ++ r.
Proof.
  rewrite leaves_opt, leaves_one. unfold sign_part. split.
  - intros [-> | (c & -> & Hc)].
    + exists []. auto.
    + apply is_sign_iff in Hc. exists [c]. split; [| reflexivity].
      destruct Hc as [-> | ->]; auto.
  - intros (sg & [-> | [-> | ->]] & ->); [left; reflexivity | right ..].
    + exists 43%N. auto.
    + exists 45%N. auto.
Qed.

Lemma leaves_opt_dot s r :
  leaves (opt (one is_dot)) s r <-> exists d, dot_part d /\ s = d ++ r.
Proof.
  rewrite leaves_opt, leaves_one. unfold dot_part. split.
  - intros [-> | (c & -> & Hc)].
    + exists []. auto.
    + apply N.eqb_eq in Hc. subst c. exists (txt "."). auto.
  - intros (d & [-> | ->] & ->); [left; reflexivity | right].
    exists 46%N. auto.
Qed.

Lemma leaves_exponent s r :
  leaves exponent s r <->
  exists e sg ds, s = e :: sg ++ ds ++ r /\ is_exp e = true /\ sign_part sg /\
                  all is_digit ds /\ ds <> [].
Proof.
  unfold exponent. rewrite leaves_seq. split.
  - intros (s1 & H1 & H). apply leaves_one in H1. destruct H1 as (e & -> & He).
    apply leaves_seq in H. destruct H as (s2 & H2 & H).
    apply leaves_opt_sign in H2. destruct H2 as (sg & Hsg & ->).
    apply leaves_seq in H. destruct H as (s3 & H3 & H).
    apply leaves_plus in H3. destruct H3 as (ds & -> & Hds & Hne).
    apply leaves_ret in H. subst s3. exists e, sg, ds. auto.
  - intros (e & sg & ds & -> & He & Hsg & Hds & Hne).
    exists (sg ++ ds ++ r). split; [apply leaves_one; eauto |].
    apply leaves_seq. exists (ds ++ r). split; [apply leaves_opt_sign; eauto |].
    apply leaves_seq. exists r. split; [apply leaves_plus; eauto |].
    apply leaves_ret. reflexivity.
Qed.

Lemma leaves_opt_exponent s r :
  leaves (opt exponent) s r <-> exists ex, exponent_part ex /\ s = ex ++ r.
Proof.
  rewrite leaves_opt, leaves_exponent. unfold exponent_part. split.
  - intros [-> | (e & sg & ds & -> & He & Hsg & Hds & Hne)].
    + exists []. auto.
    + exists (e :: sg ++ ds). split.
      * right. exists e, sg, ds. auto.
      * simpl. rewrite <- app_assoc. reflexivity.
  - intros (ex & [-> | (e & sg & ds & -> & He & Hsg & Hds & Hne)] & ->).
    + left. reflexivity.
    + right. exists e, sg, ds. simpl. rewrite <- app_assoc. auto.
Qed.

(** The number pattern recognises exactly the number literals. *)
Lemma leaves_number s r :
  leaves number s r <-> exists n, number_literal n /\ s = n ++ r.
Proof.
  unfold number. rewrite leaves_seq. split.
  - intros (s1 & H1 & H). apply leaves_opt_sign in H1. destruct H1 as (sg & Hsg & ->).
    apply leaves_seq in H. destruct H as (s2 & H2 & H).
    apply leaves_star in H2. destruct H2 as (ip & -> & Hip).
    apply leaves_seq in H. destruct H as (s3 & H3 & H).
    apply leaves_opt_dot in H3. destruct H3 as (d & Hd & ->).
    apply leaves_seq in H. destruct H as (s4 & H4 & H).
    apply leaves_plus in H4. destruct H4 as (fp & -> & Hfp & Hne).
    apply leaves_seq in H. destruct H as (s5 & H5 & H).
    apply leaves_opt_exponent in H5. destruct H5 as (ex & Hex & ->).
    apply leaves_ret in H. subst s5.
    exists (sg ++ ip ++ d ++ fp ++ ex). split.
    + exists sg, ip, d, fp, ex. auto 10.
    + rewrite <- !app_assoc. reflexivity.
  - intros (n & (sg & ip & d & fp & ex & -> & Hsg & Hip & Hd & Hfp & Hne & Hex) & ->).
    rewrite <- !app_assoc.
    eexists. split; [apply leaves_opt_sign; eauto |].
    apply leaves_seq. eexists. split; [apply leaves_star; eauto |].
    apply leaves_seq. eexists. split; [apply leaves_opt_dot; eauto |].
    apply leaves_seq. eexists. split; [apply leaves_plus; eauto |].
    apply leaves_seq. eexists. split; [apply leaves_opt_exponent; eauto |].
    apply leaves_ret. reflexivity.
Qed.

Lemma in_capture_number x r s :
  In (x, r) (capture number s) <-> number_literal x /\ s = x ++ r.
Proof.
  rewrite in_capture_leaves, leaves_number. split.
  - intros [(n & Hn & ->) ->]. rewrite firstn_app_exact. auto.
  - intros [Hn ->]. rewrite firstn_app_exact. eauto.
Qed.

(** ** The triplet pattern *)

(** Every way the triplet pattern matches at the head of a text. *)
Lemma coord_pattern_in xyz r s :
  In (xyz, r) (coord_pattern s) <-> exists t, triplet t xyz /\ s = t ++ r.
Proof.
  destruct xyz as [[x y] z]. unfold coord_pattern, triplet. rewrite in_seq. split.
  - intros (s1 & H1 & H). apply leaves_lit in H1. subst s.
    apply in_seq in H. destruct H as (s2 & H2 & H).
    apply leaves_star in H2. destruct H2 as (w0 & -> & Hw0).
    apply in_bind in H. destruct H as (x' & s3 & H3 & H).
    apply in_capture_number in H3. destruct H3 as [Hx ->].
    apply in_seq in H. destruct H as (s4 & H4 & H).
    apply leaves_plus in H4. destruct H4 as (w1 & -> & Hw1 & Hn1).
    apply in_bind in H. destruct H as (y' & s5 & H5 & H).
    apply in_capture_number in H5. destruct H5 as [Hy ->].
    apply in_seq in H. destruct H as (s6 & H6 & H).
    apply leaves_plus in H6. destruct H6 as (w2 & -> & Hw2 & Hn2).
    apply in_bind in H. destruct H as (z' & s7 & H7 & H).
    apply in_capture_number in H7. destruct H7 as [Hz ->].
    apply in_seq in H. destruct H as (s8 & H8 & H).
    apply leaves_star in H8. destruct H8 as (w3 & -> & Hw3).
    apply in_seq in H. destruct H as (s9 & H9 & H).
    apply leaves_lit in H9. subst s8.
    apply in_ret in H. destruct H as [Heq ->]. inversion Heq. subst x' y' z'.
    exists (txt "(" ++ w0 ++ x ++ w1 ++ y ++ w2 ++ z ++ w3 ++ txt ")").
    split.
    + exists w0, w1, w2, w3. auto 12.
    + rewrite <- !app_assoc. reflexivity.
  - intros (t & (w0 & w1 & w2 & w3 & -> & Hw0 & Hw1 & Hn1 & Hw2 & Hn2 & Hw3
                 & Hx & Hy & Hz) & ->).
    rewrite <- !app_assoc.
    eexists. split; [apply leaves_lit; reflexivity |].
    apply in_seq. eexists. split; [apply leaves_star; eauto |].
    apply in_bind. exists x. eexists. split; [apply in_capture_number; eauto |].
    apply in_seq. eexists. split; [apply leaves_plus; eauto |].
    apply in_bind. exists y. eexists. split; [apply in_capture_number; eauto |].
    apply in_seq. eexists. split; [apply leaves_plus; eauto |].
    apply in_bind. exists z. eexists. split; [apply in_capture_number; eauto |].
    apply in_seq. eexists. split; [apply leaves_star; eauto |].
    apply in_seq. eexists. split; [apply leaves_lit; reflexivity |].
    apply in_ret. auto.
Qed.

Ltac class_facts :=
  unfold is_numchar, is_space, is_sign, is_digit, is_dot, is_exp in *;
  repeat match goal with
         | H : _ = true |- _ =>
             progress rewrite ?orb_true_iff, ?andb_true_iff, ?N.eqb_eq,
               ?N.leb_le in H
         end.

Lemma numchar_not_space c : is_numchar c = true -> is_space c = false.
Proof.
  intros H. destruct (is_space c) eqn:E; [exfalso | reflexivity].
  class_facts. lia.
Qed.

Lemma space_not_numchar c : is_space c = true -> is_numchar c = false.
Proof.
  intros H. destruct (is_numchar c) eqn:E; [exfalso | reflexivity].
  class_facts. lia.
Qed.

Lemma all_app p a b : all p (a ++ b) <-> all p a /\ all p b.
Proof. apply Forall_app. Qed.

Lemma all_weaken (p q : char -> bool) s :
  (forall c, p c = true -> q c = true) -> all p s -> all q s.
Proof. intros H. apply Forall_impl. assumption. Qed.

Lemma sign_part_numchar sg : sign_part sg -> all is_numchar sg.
Proof.
  intros [-> | [-> | ->]]; repeat constructor.
Qed.

Lemma dot_part_numchar d : dot_part d -> all is_numchar d.
Proof. intros [-> | ->]; repeat constructor. Qed.

Lemma digits_numchar ds : all is_digit ds -> all is_numchar ds.
Proof.
  apply all_weaken. intros c H. unfold is_numchar. rewrite H.
  rewrite orb_true_r. reflexivity.
Qed.

Lemma exponent_part_numchar ex : exponent_part ex -> all is_numchar ex.
Proof.
  intros [-> | (e & sg & ds & -> & He & Hsg & Hds & _)]; [constructor |].
  constructor.
  - unfold is_numchar. rewrite He. apply orb_true_r.
  - apply all_app. split; [apply sign_part_numchar | apply digits_numchar]; auto.
Qed.

Lemma number_literal_numchar n : number_literal n -> all is_numchar n /\ n <> [].
Proof.
  intros (sg & ip & d & fp & ex & -> & Hsg & Hip & Hd & Hfp & Hne & Hex). split.
  - repeat (apply all_app; split);
      auto using sign_part_numchar, dot_part_numchar, digits_numchar,
        exponent_part_numchar.
  - intros H. apply app_eq_nil in H. destruct H as [_ H].
    apply app_eq_nil in H. destruct H as [_ H].
    apply app_eq_nil in H. destruct H as [_ H].
    apply app_eq_nil in H. destruct H as [H _]. contradiction.
Qed.

(** A run of a class before something outside the class splits in one
    way only. *)
Lemma split_unique p (a a' b b' : text) :
  all p a -> all p a' -> stops p b -> stops p b' ->
  a ++ b = a' ++ b' -> a = a' /\ b = b'.
Proof.
  revert a'. induction a as [| c a IH]; intros a' Ha Ha' Hb Hb' Heq.
  - destruct a' as [| c' a']; [auto |]. simpl in Heq. subst b.
    simpl in Hb. inversion Ha'. congruence.
  - destruct a' as [| c' a'].
    + simpl in Heq. subst b'. simpl in Hb'. inversion Ha. congruence.
    + inversion Heq. subst c'. inversion Ha. inversion Ha'. subst.
      destruct (IH a') as [-> ->]; auto.
Qed.

Lemma stops_space_number x rest : number_literal x -> stops is_space (x ++ rest).
Proof.
  intros H. apply number_literal_numchar in H. destruct H as [Hall Hne].
  destruct x as [| c x]; [congruence |]. simpl. inversion Hall.
  apply numchar_not_space. assumption.
Qed.

Lemma stops_numchar_spaces w rest :
  all is_space w -> w <> [] -> stops is_numchar (w ++ rest).
Proof.
  intros Hall Hne. destruct w as [| c w]; [congruence |]. simpl. inversion Hall.
  apply space_not_numchar. assumption.
Qed.

Lemma stops_numchar_close w rest :
  all is_space w -> stops is_numchar (w ++ txt ")" ++ rest).
Proof.
  intros Hall. destruct w as [| c w]; [reflexivity |]. simpl. inversion Hall.
  apply space_not_numchar. assumption.
Qed.

(** A triplet at the head of a text is determined by the text. *)
Lemma triplet_unique t1 t2 xyz1 xyz2 r1 r2 :
  triplet t1 xyz1 -> triplet t2 xyz2 -> t1 ++ r1 = t2 ++ r2 ->
  t1 = t2 /\ xyz1 = xyz2 /\ r1 = r2.
Proof.
  destruct xyz1 as [[x1 y1] z1], xyz2 as [[x2 y2] z2].
  intros (w0 & w1 & w2 & w3 & -> & Hw0 & Hw1 & Hn1 & Hw2 & Hn2 & Hw3
          & Hx & Hy & Hz)
         (v0 & v1 & v2 & v3 & -> & Hv0 & Hv1 & Hm1 & Hv2 & Hm2 & Hv3
          & Hx' & Hy' & Hz').
  rewrite <- !app_assoc. intros Heq.
  change (txt "(") with [40%N] in *. cbn [app] in Heq. inversion Heq as [H0].
  clear Heq.
  apply split_unique with (p := is_space) in H0;
    auto using stops_space_number. destruct H0 as [-> H0].
  apply split_unique with (p := is_numchar) in H0;
    try (apply number_literal_numchar; assumption);
    auto using stops_numchar_spaces. destruct H0 as [-> H0].
  apply split_unique with (p := is_space) in H0;
    auto using stops_space_number. destruct H0 as [-> H0].
  apply split_unique with (p := is_numchar) in H0;
    try (apply number_literal_numchar; assumption);
    auto using stops_numchar_spaces. destruct H0 as [-> H0].
  apply split_unique with (p := is_space) in H0;
    auto using stops_space_number. destruct H0 as [-> H0].
  apply split_unique with (p := is_numchar) in H0;
    try (apply number_literal_numchar; assumption);
    try (apply stops_numchar_close; assumption). destruct H0 as [-> H0].
  apply split_unique with (p := is_space) in H0; auto; try reflexivity.
  destruct H0 as [-> H0]. inversion H0. auto.
Qed.

(** At a triplet the pattern reports that triplet. *)
Lemma coord_pattern_first t xyz r :
  triplet t xyz -> first_match coord_pattern (t ++ r) = Some (xyz, r).
Proof.
  intros Ht. apply hd_error_unique.
  - apply coord_pattern_in. eauto.
  - intros [xyz' r'] Hin. apply coord_pattern_in in Hin.
    destruct Hin as (t' & Ht' & Heq).
    destruct (@triplet_unique _ _ _ _ _ _ Ht Ht' Heq) as (_ & -> & ->).
    reflexivity.
Qed.

(** Where no triplet begins the pattern fails. *)
Lemma coord_pattern_nil s :
  (forall t xyz r, triplet t xyz -> s <> t ++ r) -> coord_pattern s = [].
Proof.
  intros H. destruct (coord_pattern s) as [| [xyz r] l] eqn:E; [reflexivity |].
  exfalso. assert (Hin : In (xyz, r) (coord_pattern s)) by (rewrite E; left; reflexivity).
  apply coord_pattern_in in Hin. destruct Hin as (t & Ht & ->).
  eapply H; eauto.
Qed.

End ParseFacts.
Import ParseFacts.

(* ================================================================== *)
(** * Facts about findall *)
(* ================================================================== *)

Module ScanFacts.

Lemma findall_from_skip A (m : Re.t A) a s :
  findall_from m (length a) (a ++ s) = findall_from m 0 s.
Proof. induction a as [| c a IH]; [reflexivity | exact IH]. Qed.

(** A match at the head is reported and the scan goes on after it. *)
Lemma findall_match A (m : Re.t A) t x rest :
  t <> [] -> first_match m (t ++ rest) = Some (x, rest) ->
  findall m (t ++ rest) = x :: findall m rest.
Proof.
  intros Hne H. destruct t as [| c t]; [congruence |].
  unfold findall. cbn [app findall_from]. cbn [app] in H. rewrite H.
  rewrite length_app. replace (length t + length rest - length rest) with (length t) by lia.
  rewrite findall_from_skip. reflexivity.
Qed.

(** Nothing matches inside [g]: the scan passes over it. *)
Lemma findall_gap A (m : Re.t A) g s :
  (forall a b, g = a ++ b -> b <> [] -> m (b ++ s) = []) ->
  findall m (g ++ s) = findall m s.
Proof.
  induction g as [| c g IH]; intros H; [reflexivity |].
  pose proof (H [] (c :: g) eq_refl ltac:(discriminate)) as H0.
  unfold findall in *. cbn [app] in *. cbn [findall_from].
  unfold first_match. rewrite H0. simpl.
  apply IH. intros a b -> Hb. apply (H (c :: a) b); auto.
Qed.

Lemma findall_nil A (m : Re.t A) s :
  findall m s = [] <-> forall a b, s = a ++ b -> b <> [] -> m b = [].
Proof.
  unfold findall. induction s as [| c s IH]; cbn [findall_from].
  - split; [| reflexivity]. intros _ a b H Hb. symmetry in H.
    apply app_eq_nil in H. tauto.
  - unfold first_match. destruct (m (c :: s)) as [| [x r] l] eqn:E; simpl.
    + rewrite IH. split.
      * intros H a b Hab Hb. destruct a as [| c' a]; simpl in Hab.
        -- subst b. assumption.
        -- inversion Hab. subst. eapply H; eauto.
      * intros H a b -> Hb. apply (H (c :: a) b); auto.
    + split; [discriminate |]. intros H.
      specialize (H [] (c :: s) eq_refl ltac:(discriminate)). congruence.
Qed.

(** Every reported item is the value of a first match somewhere. *)
Lemma findall_from_Forall A (m : Re.t A) (P : A -> Prop) k s :
  (forall s' x r, first_match m s' = Some (x, r) -> P x) ->
  Forall P (findall_from m k s).
Proof.
  intros H. revert k. induction s as [| c s IH]; intros k; cbn [findall_from].
  - constructor.
  - destruct k as [| k]; [| apply IH].
    destruct (first_match m (c :: s)) as [[x r] |] eqn:E; [| apply IH].
    constructor; [eapply H; eauto | apply IH].
Qed.

End ScanFacts.
Import ScanFacts.

(* ================================================================== *)
(** * Facts about float and the parser as a whole *)
(* ================================================================== *)

Module ParseTheory.

Lemma span_app p ds rest :
  all p ds -> stops p rest -> span p (ds ++ rest) = (ds, rest).
Proof.
  intros Hall Hstop. induction Hall as [| c ds Hc Hall IH]; simpl.
  - destruct rest as [| c r]; [reflexivity |]. simpl in *. rewrite Hstop.
    reflexivity.
  - rewrite Hc, IH. reflexivity.
Qed.

Lemma read_sign_app sg rest :
  sign_part sg -> stops is_sign rest ->
  exists neg, read_sign (sg ++ rest) = (neg, rest).
Proof.
  intros [-> | [-> | ->]] Hstop.
  - cbn [app]. unfold read_sign. destruct rest as [| c r]; [eauto |].
    cbn [stops] in Hstop. rewrite Hstop. eauto.
  - eexists. reflexivity.
  - eexists. reflexivity.
Qed.

Lemma digit_not_sign c : is_digit c = true -> is_sign c = false.
Proof.
  intros H. destruct (is_sign c) eqn:E; [exfalso | reflexivity].
  class_facts. lia.
Qed.

Lemma exp_not_digit c : is_exp c = true -> is_digit c = false.
Proof.
  intros H. destruct (is_digit c) eqn:E; [exfalso | reflexivity].
  class_facts. lia.
Qed.

Lemma exp_not_dot c : is_exp c = true -> is_dot c = false.
Proof.
  intros H. destruct (is_dot c) eqn:E; [exfalso | reflexivity].
  class_facts. lia.
Qed.

Lemma stops_sign_digits ds rest :
  all is_digit ds -> ds <> [] -> stops is_sign (ds ++ rest).
Proof.
  intros Hall Hne. destruct ds as [| c ds]; [congruence |]. simpl.
  inversion Hall. apply digit_not_sign. assumption.
Qed.

Lemma stops_digit_exponent ex rest :
  exponent_part ex -> stops is_digit rest -> stops is_digit (ex ++ rest).
Proof.
  intros [-> | (e & sg & ds & -> & He & _)] Hrest; [assumption |].
  simpl. apply exp_not_digit. assumption.
Qed.

Lemma read_exponent_some ex : exponent_part ex -> exists e, read_exponent ex = Some e.
Proof.
  intros [-> | (e & sg & ds & -> & He & Hsg & Hds & Hne)]; [simpl; eauto |].
  unfold read_exponent. rewrite He.
  destruct (@read_sign_app sg ds Hsg) as [neg Hneg].
  { rewrite <- (app_nil_r ds). apply stops_sign_digits; assumption. }
  assert (Hsp : span is_digit ds = (ds, [])).
  { pose proof (@span_app is_digit ds [] Hds I) as H. rewrite app_nil_r in H.
    exact H. }
  rewrite Hneg, Hsp. destruct ds; [congruence | eauto].
Qed.

(** [float] accepts every number literal. *)
Lemma float_number_literal n : number_literal n -> exists v, float n = Some v.
Proof.
  intros (sg & ip & d & fp & ex & -> & Hsg & Hip & Hd & Hfp & Hne & Hex).
  destruct (read_exponent_some Hex) as [e He].
  unfold float.
  destruct (@read_sign_app sg (ip ++ d ++ fp ++ ex) Hsg) as [neg Hneg].
  { destruct ip as [| c ip].
    - destruct Hd as [-> | ->]; [| reflexivity].
      simpl. apply stops_sign_digits; assumption.
    - simpl. inversion Hip. apply digit_not_sign. assumption. }
  rewrite Hneg. destruct Hd as [-> | ->].
  - cbn [app]. rewrite app_assoc.
    rewrite span_app.
    2:{ apply all_app. auto. }
    2:{ rewrite <- (app_nil_r ex). apply stops_digit_exponent; [assumption | exact I]. }
    assert (Hdot : forall c r, ex = c :: r -> is_dot c = false).
    { intros c r ->. destruct Hex as [H | (c' & sg' & ds & H & Hc & _)];
        [discriminate |]. inversion H. subst. apply exp_not_dot. assumption. }
    assert (Hm : (ip ++ fp) ++ [] <> []).
    { rewrite app_nil_r. intros E. apply app_eq_nil in E. tauto. }
    destruct ex as [| c r].
    + rewrite He. destruct ((ip ++ fp) ++ []); [congruence | eauto].
    + rewrite (Hdot c r eq_refl), He.
      destruct ((ip ++ fp) ++ []); [congruence | eauto].
  - rewrite span_app; [| assumption | reflexivity].
    change (txt "." ++ fp ++ ex) with (46%N :: fp ++ ex). cbn [is_dot N.eqb Pos.eqb].
    rewrite span_app; [| assumption |].
    2:{ rewrite <- (app_nil_r ex). apply stops_digit_exponent; [assumption | exact I]. }
    rewrite He. destruct (ip ++ fp) eqn:E.
    + apply app_eq_nil in E. tauto.
    + eauto.
Qed.

Lemma first_match_triplet s xyz r :
  first_match coord_pattern s = Some (xyz, r) ->
  exists t, triplet t xyz /\ s = t ++ r.
Proof.
  unfold first_match. intros H. apply coord_pattern_in.
  destruct (coord_pattern s); [discriminate |]. inversion H. left. reflexivity.
Qed.

Lemma triplet_numbers t x y z :
  triplet t (x, y, z) -> number_literal x /\ number_literal y /\ number_literal z.
Proof. intros (w0 & w1 & w2 & w3 & H). tauto. Qed.

Lemma floats_some ms :
  Forall (fun xyz => exists t, triplet t xyz) ms ->
  exists vs, floats ms = Some vs /\ length vs = length ms.
Proof.
  induction ms as [| [[x y] z] ms IH]; intros H; [exists []; auto |].
  inversion H as [| ? ? [t Ht] Hms]. subst.
  destruct (IH Hms) as (vs & Hvs & Hlen).
  apply triplet_numbers in Ht. destruct Ht as (Hx & Hy & Hz).
  destruct (float_number_literal Hx) as [a Ha].
  destruct (float_number_literal Hy) as [b Hb].
  destruct (float_number_literal Hz) as [c Hc].
  exists ((a, b, c) :: vs). cbn [floats float3]. rewrite Ha, Hb, Hc, Hvs.
  simpl. auto.
Qed.

(** The conversion of what [findall] returned cannot fail. *)
Lemma floats_findall span :
  exists vs, floats (findall coord_pattern span) = Some vs /\
             length vs = length (findall coord_pattern span).
Proof.
  apply floats_some. apply findall_from_Forall. intros s' x r Hm.
  apply first_match_triplet in Hm. destruct Hm as (t & Ht & _). eauto.
Qed.

Lemma all_not_in p s c : all p s -> p c = false -> ~ In c s.
Proof.
  intros Hall Hc Hin. unfold all in Hall. rewrite Forall_forall in Hall.
  apply Hall in Hin. congruence.
Qed.

(** A triplet has one open parenthesis, its first character. *)
Lemma triplet_open_once t xyz :
  triplet t xyz -> exists inner, t = 40%N :: inner /\ ~ In 40%N inner.
Proof.
  destruct xyz as [[x y] z].
  intros (w0 & w1 & w2 & w3 & -> & Hw0 & Hw1 & _ & Hw2 & _ & Hw3 & Hx & Hy & Hz).
  apply number_literal_numchar in Hx, Hy, Hz.
  destruct Hx as [Hx _], Hy as [Hy _], Hz as [Hz _].
  exists (w0 ++ x ++ w1 ++ y ++ w2 ++ z ++ w3 ++ txt ")").
  split; [reflexivity |].
  rewrite !in_app_iff. intros H.
  repeat destruct H as [H | H];
    try (revert H; apply all_not_in with (p := is_space); [assumption | reflexivity]);
    try (revert H; apply all_not_in with (p := is_numchar); [assumption | reflexivity]).
  - discriminate H.
  - destruct H.
Qed.

Lemma triplet_nonempty t xyz : triplet t xyz -> t <> [].
Proof.
  intros H. apply triplet_open_once in H. destruct H as (inner & -> & _).
  discriminate.
Qed.

(** No match begins inside a text free of triplets, whatever triplet or
    end of text follows it. *)
Lemma coord_pattern_gap g s :
  triplet_free g -> at_open s ->
  forall a b, g = a ++ b -> b <> [] -> coord_pattern (b ++ s) = [].
Proof.
  intros Hfree Hs a b -> Hb. apply coord_pattern_nil. intros t xyz r Ht Heq.
  apply app_eq_app in Heq. destruct Heq as [l [[-> ->] | [-> Hsl]]].
  - apply (Hfree a t l xyz); [reflexivity | assumption].
  - destruct l as [| c l].
    + rewrite app_nil_r in Ht. apply (Hfree a b [] xyz); [| assumption].
      rewrite app_nil_r. reflexivity.
    + subst s. simpl in Hs. subst c.
      apply triplet_open_once in Ht. destruct Ht as (inner & Heq & Hno).
      destruct b as [| c b]; [congruence |]. inversion Heq. subst.
      apply Hno. apply in_or_app. right. left. reflexivity.
Qed.

Lemma at_open_laid_out (items : list item) :
  Forall well_formed items -> at_open (laid_out items).
Proof.
  intros H. destruct H as [| [[t xyz] g] items Hit _]; [exact I |].
  destruct Hit as [Ht _]. apply triplet_open_once in Ht. destruct Ht as (inner & -> & _).
  reflexivity.
Qed.

Lemma laid_out_cons t xyz g (items : list item) :
  laid_out ((t, xyz, g) :: items) = t ++ g ++ laid_out items.
Proof. unfold laid_out. simpl. rewrite <- app_assoc. reflexivity. Qed.

(** [findall] on a laid out span reports the triplets in their order. *)
Lemma findall_laid_out g0 items :
  triplet_free g0 -> Forall well_formed items ->
  findall coord_pattern (g0 ++ laid_out items) = numbers_of items.
Proof.
  intros Hg0 Hitems. revert g0 Hg0.
  induction Hitems as [| [[t xyz] g] items Hit Hrest IH]; intros g0 Hg0.
  - rewrite findall_gap; [reflexivity |].
    apply coord_pattern_gap; [assumption | exact I].
  - destruct Hit as [Ht Hg]. rewrite findall_gap.
    2:{ apply coord_pattern_gap; [assumption |].
        apply (@at_open_laid_out ((t, xyz, g) :: items)).
        constructor; [split |]; assumption. }
    rewrite laid_out_cons. cbn [numbers_of map].
    rewrite (@findall_match _ coord_pattern t xyz (g ++ laid_out items)).
    + f_equal. apply IH. assumption.
    + eapply triplet_nonempty; eauto.
    + apply coord_pattern_first. assumption.
Qed.

(** [findall] reports nothing exactly on the texts free of triplets. *)
Lemma findall_nil_iff s : findall coord_pattern s = [] <-> triplet_free s.
Proof.
  split.
  - intros H a t b xyz -> Ht. rewrite findall_nil in H.
    assert (Hin : In (xyz, b) (coord_pattern (t ++ b)))
      by (apply coord_pattern_in; eauto).
    rewrite (H a (t ++ b) eq_refl) in Hin; [destruct Hin |].
    apply triplet_nonempty in Ht. destruct t; [congruence | discriminate].
  - intros H. pose proof (@findall_laid_out s [] H (Forall_nil _)) as E.
    simpl in E. rewrite app_nil_r in E. assumption.
Qed.

End ParseTheory.
Import ParseTheory.

(* ================================================================== *)
(** * Facts about the removal of comments *)
(* ================================================================== *)

Module CommentFacts.

Lemma sub_from_skip A (m : Re.t A) a s :
  sub_from m (length a) (a ++ s) = sub_from m 0 s.
Proof. induction a as [| c a IH]; [reflexivity | exact IH]. Qed.

(** A match at the head is dropped and the scan goes on after it. *)
Lemma sub_match A (m : Re.t A) t x rest :
  t <> [] -> first_match m (t ++ rest) = Some (x, rest) ->
  sub_empty m (t ++ rest) = sub_empty m rest.
Proof.
  intros Hne H. destruct t as [| c t]; [congruence |].
  unfold sub_empty. cbn [app sub_from]. cbn [app] in H. rewrite H.
  rewrite length_app.
  replace (length t + length rest - length rest) with (length t) by lia.
  apply sub_from_skip.
Qed.

(** Nothing matches inside [g]: it is kept as it is. *)
Lemma sub_pass A (m : Re.t A) g s :
  (forall a b, g = a ++ b -> b <> [] -> m (b ++ s) = []) ->
  sub_empty m (g ++ s) = g ++ sub_empty m s.
Proof.
  induction g as [| c g IH]; intros H; [reflexivity |].
  pose proof (H [] (c :: g) eq_refl ltac:(discriminate)) as H0.
  unfold sub_empty in *. cbn [app] in *. cbn [sub_from].
  unfold first_match. rewrite H0. simpl. f_equal.
  apply IH. intros a b -> Hb. apply (H (c :: a) b); auto.
Qed.

Lemma star_head p ws r :
  all p ws -> stops p r -> exists more, star p (ws ++ r) = (ws, r) :: more.
Proof.
  intros Hall Hstop. induction Hall as [| c ws Hc Hall IH].
  - destruct r as [| c r]; simpl in *; [eauto |]. rewrite Hstop. eauto.
  - destruct IH as [more IH]. cbn [app star]. rewrite Hc, IH. simpl. eauto.
Qed.

Lemma lit_head_differs B a l (f : unit -> Re.t B) c r :
  (a =? c)%N = false -> bind (lit (a :: l)) f (c :: r) = [].
Proof.
  intros H. apply bind_nil. cbn [lit]. apply bind_nil. unfold one.
  rewrite H. reflexivity.
Qed.

Lemma line_comment_no_slash c r : c <> slash -> line_comment (c :: r) = [].
Proof.
  intros H. apply lit_head_differs. apply N.eqb_neq.
  intros E. apply H. rewrite <- E. reflexivity.
Qed.

Lemma block_comment_no_slash c r : c <> slash -> block_comment (c :: r) = [].
Proof.
  intros H. apply lit_head_differs. apply N.eqb_neq.
  intros E. apply H. rewrite <- E. reflexivity.
Qed.

(** A slash that no slash follows begins no line comment. *)
Lemma line_comment_one_slash r :
  stops (N.eqb slash) r -> line_comment (slash :: r) = [].
Proof.
  intros H. unfold line_comment. apply bind_nil.
  change (txt "//") with [slash; slash]. cbn [lit]. unfold bind, one.
  rewrite N.eqb_refl. simpl. destruct r as [| c r]; [reflexivity |].
  simpl in H. rewrite H. reflexivity.
Qed.

Lemma not_in_all_differ (x : char) s :
  ~ In x s -> all (fun c => negb (c =? x)%N) s.
Proof.
  intros H. apply Forall_forall. intros c Hc. apply negb_true_iff.
  apply N.eqb_neq. intros ->. contradiction.
Qed.

(** A line comment is matched up to its line feed. *)
Lemma line_comment_first c rest :
  ~ In LF c ->
  first_match line_comment (txt "//" ++ c ++ LF :: rest) = Some (tt, LF :: rest).
Proof.
  intros Hc. unfold first_match, line_comment. rewrite bind_lit_app.
  destruct (@star_head not_newline c (LF :: rest)) as [more Hmore].
  - apply not_in_all_differ. assumption.
  - reflexivity.
  - unfold bind. rewrite Hmore. reflexivity.
Qed.

Lemma no_slash_first_close c rest :
  ~ In slash c -> first_close (txt "*/") c rest.
Proof.
  unfold first_close. change (txt "*/") with [42%N; slash].
  induction c as [| x c IH]; intros Hc b1 r1 Heq; [simpl; lia |].
  destruct b1 as [| y b1].
  - exfalso. cbn [app] in Heq. inversion Heq as [[Hx Hrest]].
    destruct c as [| x' c]; cbn [app] in Hrest; inversion Hrest.
    apply Hc. right. left. congruence.
  - cbn [app] in Heq. inversion Heq. subst. simpl. apply le_n_S.
    apply (IH (fun H => Hc (or_intror H)) b1 r1). assumption.
Qed.

(** A block comment without a slash inside is matched to its end. *)
Lemma block_comment_first c rest :
  ~ In slash c ->
  first_match block_comment (txt "/*" ++ c ++ txt "*/" ++ rest) = Some (tt, rest).
Proof.
  intros Hc. unfold first_match, block_comment. rewrite bind_lit_app.
  destruct (@bind_star_lazy_first _ (fun _ => lit (txt "*/")) c
              (txt "*/" ++ rest)) as [more Hmore].
  - intros b1 r1 Heq Hlen. apply lit_nil_iff. intros r ->.
    pose proof (@no_slash_first_close c rest Hc b1 r Heq). lia.
  - rewrite Hmore, lit_app. reflexivity.
Qed.

Lemma sub_plain A (m : Re.t A) p s :
  (forall c r, c <> slash -> m (c :: r) = []) -> ~ In slash p ->
  sub_empty m (p ++ s) = p ++ sub_empty m s.
Proof.
  intros Hm Hp. apply sub_pass. intros a b -> Hb.
  destruct b as [| c b]; [congruence |]. apply Hm. intros ->.
  apply Hp. apply in_or_app. right. left. reflexivity.
Qed.

Lemma sub_one_slash s :
  stops (N.eqb slash) s ->
  sub_empty line_comment (slash :: s) = slash :: sub_empty line_comment s.
Proof.
  intros H. unfold sub_empty. cbn [sub_from]. unfold first_match.
  rewrite line_comment_one_slash; [reflexivity | assumption].
Qed.

(** The first substitution on well commented pieces. *)
Lemma line_pass ps :
  well_commented ps ->
  sub_empty line_comment (render ps) = after_line_pass ps.
Proof.
  induction ps as [| x ps IH]; [reflexivity |].
  destruct x as [p | c | c]; cbn [well_commented].
  - intros [Hp Hps]. unfold render, after_line_pass. cbn [flat_map render_piece].
    rewrite sub_plain; [| apply line_comment_no_slash | assumption].
    f_equal. apply IH. assumption.
  - intros [Hc Hps]. unfold render, after_line_pass. cbn [flat_map render_piece].
    fold (render ps). fold (after_line_pass ps).
    replace ((txt "//" ++ c ++ [LF]) ++ render ps)
      with ((txt "//" ++ c) ++ [LF] ++ render ps)
      by (rewrite <- !app_assoc; reflexivity).
    rewrite (@sub_match _ line_comment (txt "//" ++ c) tt).
    + rewrite sub_plain; [| apply line_comment_no_slash |].
      * f_equal. apply IH. assumption.
      * intros [H | []]. discriminate.
    + discriminate.
    + rewrite <- app_assoc. apply line_comment_first. assumption.
  - intros (Hc & Hnext & Hps). unfold render, after_line_pass.
    cbn [flat_map render_piece]. fold (render ps). fold (after_line_pass ps).
    change (txt "/*") with [slash; 42%N]. change (txt "*/") with [42%N; slash].
    replace (([slash; 42%N] ++ c ++ [42%N; slash]) ++ render ps)
      with (slash :: (42%N :: c ++ [42%N]) ++ slash :: render ps)
      by (cbn [app]; rewrite <- !app_assoc; reflexivity).
    rewrite sub_one_slash; [| reflexivity].
    rewrite sub_plain; [| apply line_comment_no_slash |].
    2:{ intros [H | H]; [discriminate |]. apply in_app_or in H.
        destruct H as [H | [H | []]]; [contradiction | discriminate]. }
    rewrite sub_one_slash; [| assumption].
    rewrite (IH Hps). cbn [app]. rewrite <- !app_assoc. reflexivity.
Qed.

(** The second substitution on what the first one left. *)
Lemma block_pass ps :
  well_commented ps ->
  sub_empty block_comment (after_line_pass ps) = stripped ps.
Proof.
  induction ps as [| x ps IH]; [reflexivity |].
  destruct x as [p | c | c]; cbn [well_commented].
  - intros [Hp Hps]. unfold after_line_pass, stripped.
    cbn [flat_map render_piece stripped_piece].
    rewrite sub_plain; [| apply block_comment_no_slash | assumption].
    f_equal. apply IH. assumption.
  - intros [Hc Hps]. unfold after_line_pass, stripped.
    cbn [flat_map stripped_piece].
    rewrite sub_plain; [| apply block_comment_no_slash |].
    + f_equal. apply IH. assumption.
    + intros [H | []]. discriminate.
  - intros (Hc & Hnext & Hps). unfold after_line_pass, stripped.
    cbn [flat_map render_piece stripped_piece].
    fold (after_line_pass ps). fold (stripped ps). cbn [app].
    rewrite (@sub_match _ block_comment (txt "/*" ++ c ++ txt "*/") tt).
    + apply IH. assumption.
    + discriminate.
    + rewrite <- !app_assoc. apply block_comment_first. assumption.
Qed.

(** Well placed comments are removed, and nothing else is. *)
Lemma remove_comments_pieces ps :
  well_commented ps -> remove_comments (render ps) = stripped ps.
Proof.
  intros H. unfold remove_comments. rewrite (line_pass ps H).
  apply block_pass. assumption.
Qed.

End CommentFacts.
Import CommentFacts.

(* ================================================================== *)
(** * Facts about the dictionary *)
(* ================================================================== *)

Module DictFacts.
Section WithKey.

Variable K : Type.
Variable keqb : K -> K -> bool.

(** Appending adds the index once to the values, and nothing else. *)
Lemma values_append_perm k i (d : Dict.t K) :
  Permutation (concat (Dict.values (Dict.append keqb k i d)))
              (i :: concat (Dict.values d)).
Proof.
  induction d as [| [k0 l0] d IH]; simpl.
  - constructor. constructor.
  - destruct (keqb k0 k); simpl.
    + rewrite <- app_assoc. simpl.
      apply Permutation_sym. apply Permutation_middle.
    + rewrite IH. apply Permutation_sym. apply Permutation_middle.
Qed.

Lemma append_keys k i (d : Dict.t K) k' l' :
  In (k', l') (Dict.append keqb k i d) -> k' = k \/ exists l, In (k', l) d.
Proof.
  induction d as [| [k0 l0] d IH]; simpl.
  - intros [H | []]. inversion H. auto.
  - destruct (keqb k0 k); simpl.
    + intros [H | H].
      * inversion H. subst. right. exists l0. auto.
      * right. exists l'. auto.
    + intros [H | H].
      * inversion H. subst. right. exists l'. auto.
      * destruct (IH H) as [-> | [l Hl]]; [auto | right; exists l; auto].
Qed.

Lemma append_keeps_keys k i (d : Dict.t K) k0 l :
  In (k0, l) d -> exists l', In (k0, l') (Dict.append keqb k i d).
Proof.
  induction d as [| [k1 l1] d IH]; simpl; [intros [] |].
  intros [H | H].
  - inversion H. subst. destruct (keqb k0 k); eexists; left; reflexivity.
  - destruct (keqb k1 k).
    + exists l. right. assumption.
    + destruct (IH H) as [l' Hl']. exists l'. right. assumption.
Qed.

(** The new index lands in a group. *)
Lemma append_has k i (d : Dict.t K) :
  exists k' l', In (k', l') (Dict.append keqb k i d) /\ In i l'.
Proof.
  induction d as [| [k0 l0] d IH]; simpl.
  - exists k, [i]. simpl. auto.
  - destruct (keqb k0 k).
    + exists k0, (l0 ++ [i]). split; [left; reflexivity |].
      apply in_or_app. right. left. reflexivity.
    + destruct IH as (k' & l' & H1 & H2). exists k', l'. simpl. auto.
Qed.

(** A group keeps its key and its indices. *)
Lemma append_keeps k i (d : Dict.t K) k0 l :
  In (k0, l) d ->
  exists l', In (k0, l') (Dict.append keqb k i d) /\ forall j, In j l -> In j l'.
Proof.
  induction d as [| [k1 l1] d IH]; simpl; [intros [] |].
  intros [H | H].
  - inversion H. subst. destruct (keqb k0 k).
    + exists (l ++ [i]). split; [left; reflexivity |].
      intros j Hj. apply in_or_app. left. assumption.
    + exists l. split; [left; reflexivity | auto].
  - destruct (keqb k1 k).
    + exists l. split; [right; assumption | auto].
    + destruct (IH H) as (l' & Hl' & Hsub). exists l'.
      split; [right; assumption | assumption].
Qed.

(** [==] on keys is symmetric and transitive; it is not reflexive on a
    key that holds a [nan]. *)
Hypothesis keqb_sym : forall a b, keqb a b = true -> keqb b a = true.
Hypothesis keqb_trans :
  forall a b c, keqb a b = true -> keqb b c = true -> keqb a c = true.

(** The groups after an append, from the groups before it: the group is
    one of before with the index added, or the new group of the index
    alone, or a group of before with another key. *)
Lemma append_spec k i (d : Dict.t K) k' l' :
  distinct_keys keqb d -> In (k', l') (Dict.append keqb k i d) ->
  (exists l, In (k', l) d /\ l' = l ++ [i] /\ keqb k' k = true)
  \/ (l' = [i] /\ k' = k /\ forall k0 l0, In (k0, l0) d -> keqb k0 k = false)
  \/ (keqb k' k = false /\ In (k', l') d).
Proof.
  unfold distinct_keys. induction d as [| [k0 l0] d IH]; simpl; intros Hd.
  - intros [H | []]. inversion H. subst. right. left.
    repeat split. intros k0 l0 [].
  - inversion Hd as [| ? ? Hk0 Hd']. subst. destruct (keqb k0 k) eqn:E; simpl.
    + intros [H | H].
      * inversion H. subst. left. exists l0. auto.
      * right. right. split; [| right; assumption].
        rewrite Forall_forall in Hk0. specialize (Hk0 _ H). simpl in Hk0.
        destruct (keqb k' k) eqn:E'; [| reflexivity].
        rewrite (keqb_trans E (keqb_sym E')) in Hk0. discriminate.
    + intros [H | H].
      * inversion H. subst. right. right. auto.
      * destruct (IH Hd' H)
          as [(l & Hl & -> & Hk) | [(-> & -> & Hall) | [Hk Hin]]].
        -- left. exists l. auto.
        -- right. left. repeat split.
           intros k1 l1 [H1 | H1]; [inversion H1; subst; assumption | eauto].
        -- right. right. auto.
Qed.

Lemma append_distinct k i (d : Dict.t K) :
  distinct_keys keqb d -> distinct_keys keqb (Dict.append keqb k i d).
Proof.
  unfold distinct_keys. induction d as [| [k0 l0] d IH]; simpl; intros Hd.
  - constructor; constructor.
  - inversion Hd as [| ? ? Hk0 Hd']. subst. destruct (keqb k0 k) eqn:E.
    + constructor; assumption.
    + constructor; [| apply IH; assumption].
      rewrite Forall_forall in *. intros [k' l'] Hin. simpl.
      apply append_keys in Hin. destruct Hin as [-> | [l Hl]]; [assumption |].
      apply (Hk0 _ Hl).
Qed.

End WithKey.
End DictFacts.

(* ================================================================== *)
(** * Facts about rounding and keys *)
(* ================================================================== *)

Module KeyFacts.

Lemma eqb_iff a b : eqb a b = true <-> same_number a b.
Proof.
  unfold eqb, SFeqb.
  destruct a as [[] | [] | | [] m e], b as [[] | [] | | [] m' e']; simpl;
    try solve [intuition (try discriminate; auto)].
  - destruct (Z.compare_spec e e') as [-> | H | H]; simpl;
      try solve [split; [discriminate | intros (_ & _ & E); lia]].
    fold (Pos.compare m m').
    destruct (Pos.compare_spec m m') as [-> | H | H]; simpl;
      try solve [split; [discriminate | intros (_ & E & _); lia]].
    split; auto.
  - destruct (Z.compare_spec e e') as [-> | H | H]; simpl;
      try solve [split; [discriminate | intros (_ & _ & E); lia]].
    fold (Pos.compare m m').
    destruct (Pos.compare_spec m m') as [-> | H | H]; simpl;
      try solve [split; [discriminate | intros (_ & E & _); lia]].
    split; auto.
Qed.

Lemma eqb_sym a b : eqb a b = true -> eqb b a = true.
Proof.
  rewrite !eqb_iff. destruct a, b; simpl; try tauto; try congruence.
  intros (-> & -> & ->). auto.
Qed.

Lemma eqb_trans a b c : eqb a b = true -> eqb b c = true -> eqb a c = true.
Proof.
  rewrite !eqb_iff. destruct a, b, c; simpl; try tauto; try congruence.
  intros (-> & -> & ->) (-> & -> & ->). auto.
Qed.

(** A number equals itself unless it is a [nan]. *)
Lemma eqb_refl a : a <> S754_nan -> eqb a a = true.
Proof. intros H. apply eqb_iff. destruct a; simpl; auto. Qed.

(** The rounding of a quotient is a nearest integer, and the even one
    when the quotient lies half way between two integers. *)
Lemma round_half_even_spec m d :
  (0 < d)%Z ->
  (Z.abs (2 * m - 2 * round_half_even m d * d) <= d)%Z /\
  (Z.abs (2 * m - 2 * round_half_even m d * d) = d ->
   Z.even (round_half_even m d) = true)%Z.
Proof.
  intros Hd. unfold round_half_even.
  pose proof (Z.div_mod m d ltac:(lia)) as Hm.
  pose proof (Z.mod_pos_bound m d Hd) as Hr.
  set (q := (m / d)%Z) in *. set (r := (m mod d)%Z) in *.
  destruct (Z.compare_spec (2 * r) d) as [E | E | E].
  - destruct (Z.even q) eqn:Hq.
    + split; [nia | auto].
    + split; [nia |]. intros _. rewrite Z.add_1_r, Z.even_succ.
      rewrite <- Z.negb_even, Hq. reflexivity.
  - split; nia.
  - split; nia.
Qed.

(** ** No operation of the key gives a [nan] from a number *)

Lemma shr_1_nonneg mrs : (0 <= shr_m mrs)%Z -> (0 <= shr_m (shr_1 mrs))%Z.
Proof.
  destruct mrs as [m r s]. simpl. destruct m as [| [p | p |] | p]; simpl; lia.
Qed.

Lemma iter_pos_inv A (P : A -> Prop) (f : A -> A) :
  (forall x, P x -> P (f x)) -> forall n x, P x -> P (iter_pos f n x).
Proof.
  intros Hf. induction n as [n IH | n IH |]; intros x Hx; simpl; auto.
Qed.

Lemma shr_nonneg mrs e n :
  (0 <= shr_m mrs)%Z -> (0 <= shr_m (fst (shr mrs e n)))%Z.
Proof.
  intros H. destruct n; simpl; try assumption.
  apply iter_pos_inv; [apply shr_1_nonneg | assumption].
Qed.

Lemma shr_fexp_nonneg m e l :
  (0 <= m)%Z -> (0 <= shr_m (fst (shr_fexp prec emax m e l)))%Z.
Proof.
  intros H. unfold shr_fexp. apply shr_nonneg.
  destruct l as [| []]; simpl; assumption.
Qed.

Lemma round_nearest_even_nonneg m l :
  (0 <= m)%Z -> (0 <= round_nearest_even m l)%Z.
Proof.
  intros H. destruct l as [| []]; simpl; try lia. destruct (Z.even m); lia.
Qed.

Lemma binary_round_aux_not_nan s m e l :
  (0 <= m)%Z -> binary_round_aux prec emax s m e l <> S754_nan.
Proof.
  intros H. unfold binary_round_aux.
  pose proof (shr_fexp_nonneg e l H) as H1.
  destruct (shr_fexp prec emax m e l) as [mrs' e'].
  simpl in H1.
  pose proof (@shr_fexp_nonneg
                (round_nearest_even (shr_m mrs') (loc_of_shr_record mrs'))
                e' loc_Exact (round_nearest_even_nonneg _ H1)) as H2.
  destruct (shr_fexp prec emax _ e' loc_Exact) as [mrs'' e''].
  simpl in H2. destruct (shr_m mrs''); try lia; try discriminate.
  destruct (e'' <=? emax - prec)%Z; discriminate.
Qed.

Lemma binary_round_not_nan s m e : binary_round prec emax s m e <> S754_nan.
Proof.
  unfold binary_round. destruct (shl_align _ _ _) as [mz ez].
  apply binary_round_aux_not_nan. lia.
Qed.

Lemma div_core_nonneg m1 e1 m2 e2 :
  (0 <= fst (fst (SFdiv_core_binary prec emax (Zpos m1) e1 (Zpos m2) e2)))%Z.
Proof.
  unfold SFdiv_core_binary.
  set (e' := Z.min _ _). set (sh := (e1 - e2 - e')%Z).
  set (m' := match sh with
             | Zpos _ => Z.shiftl (Zpos m1) sh
             | Z0 => Zpos m1
             | Zneg _ => 0%Z
             end).
  assert (Hm' : (0 <= m')%Z).
  { unfold m'. destruct sh; try lia. apply Z.shiftl_nonneg. lia. }
  pose proof (Z.div_pos m' (Zpos m2) Hm' ltac:(lia)) as Hq.
  unfold Z.div in Hq. destruct (Z.div_eucl m' (Zpos m2)) as [q r]. simpl.
  exact Hq.
Qed.

Lemma div_not_nan x : x <> S754_nan -> div x tolerance <> S754_nan.
Proof.
  intros H. destruct x as [s | s | | s m e]; try congruence; try discriminate.
  unfold div, tolerance, SFdiv.
  pose proof (div_core_nonneg m e 4722366482869645 (-72)) as Hq.
  destruct (SFdiv_core_binary _ _ _ _ _ _) as [[q e'] l]. simpl in Hq.
  apply binary_round_aux_not_nan. assumption.
Qed.

Lemma rint_not_nan x : x <> S754_nan -> rint x <> S754_nan.
Proof.
  intros H. destruct x as [s | s | | s m e]; try congruence; try discriminate.
  unfold rint. destruct (0 <=? e)%Z; [discriminate |].
  destruct (round_half_even _ _); try discriminate. apply binary_round_not_nan.
Qed.

Lemma mul_not_nan x : x <> S754_nan -> mul x tolerance <> S754_nan.
Proof.
  intros H. destruct x as [s | s | | s m e]; try congruence; try discriminate.
  unfold mul, tolerance, SFmul. apply binary_round_aux_not_nan. lia.
Qed.

Lemma quantize_not_nan x : x <> S754_nan -> quantize x <> S754_nan.
Proof.
  intros H. unfold quantize. auto using div_not_nan, rint_not_nan, mul_not_nan.
Qed.

(** Equal numbers have equal keys: the two zeros give a zero, an infinity
    gives itself. *)
Lemma quantize_eqb x y : eqb x y = true -> eqb (quantize x) (quantize y) = true.
Proof.
  intros H. pose proof H as H'. apply eqb_iff in H'.
  destruct x as [s | s | | s m e], y as [s' | s' | | s' m' e']; simpl in H';
    try contradiction.
  - reflexivity.
  - subst. destruct s'; reflexivity.
  - destruct H' as (-> & -> & ->). apply eqb_refl. apply quantize_not_nan.
    discriminate.
Qed.

Lemma key_eqb_sym a b : key_eqb a b = true -> key_eqb b a = true.
Proof.
  destruct a as [[x y] z], b as [[x' y'] z']. unfold key_eqb.
  rewrite !andb_true_iff. intros [[H1 H2] H3].
  repeat split; apply eqb_sym; assumption.
Qed.

Lemma key_eqb_trans a b c :
  key_eqb a b = true -> key_eqb b c = true -> key_eqb a c = true.
Proof.
  destruct a as [[x y] z], b as [[x' y'] z'], c as [[x'' y''] z''].
  unfold key_eqb. rewrite !andb_true_iff.
  intros [[H1 H2] H3] [[H4 H5] H6].
  repeat split; eapply eqb_trans; eassumption.
Qed.

(** Vertices that are equal as numbers on every axis have equal keys. *)
Lemma vertex_key_eqb a b :
  key_eqb a b = true -> key_eqb (vertex_key a) (vertex_key b) = true.
Proof.
  destruct a as [[x y] z], b as [[x' y'] z']. unfold key_eqb, vertex_key.
  rewrite !andb_true_iff. intros [[H1 H2] H3].
  repeat split; apply quantize_eqb; assumption.
Qed.

End KeyFacts.
Import KeyFacts.

(* ================================================================== *)
(** * Facts about the grouping loop *)
(* ================================================================== *)

Module GroupTheory.

Lemma sorted_snoc l n :
  StronglySorted lt l -> (forall j, In j l -> j < n) ->
  StronglySorted lt (l ++ [n]).
Proof.
  induction 1 as [| a l Hl IH Ha]; intros Hn; simpl.
  - constructor; constructor.
  - constructor.
    + apply IH. intros j Hj. apply Hn. right. assumption.
    + apply Forall_app. split; [assumption |].
      constructor; [| constructor]. apply Hn. left. reflexivity.
Qed.

Lemma grouped_init vs : grouped vs 0 [].
Proof.
  split; [constructor |]. split.
  - intros k indices [].
  - intros j Hj. lia.
Qed.

(** One turn of the loop keeps the dictionary grouped. *)
Lemma grouped_step vs n d v :
  grouped vs n d -> nth_error vs n = Some v ->
  grouped vs (S n) (Dict.append key_eqb (vertex_key v) n d).
Proof.
  intros (Hkeys & Hgroups & Hcover) Hv. split; [| split].
  - apply DictFacts.append_distinct. assumption.
  - intros k indices Hin.
    apply (@DictFacts.append_spec _ key_eqb key_eqb_sym key_eqb_trans) in Hin;
      [| assumption].
    destruct Hin as [(l & Hl & -> & Hk) | [(-> & -> & Hnew) | [Hk Hin]]].
    + destruct (Hgroups _ _ Hl) as (Hne & Hsorted & Hfirst & Hmem).
      assert (Hhd : hd 0 (l ++ [n]) = hd 0 l)
        by (destruct l; [congruence | reflexivity]).
      rewrite Hhd. split; [| split; [| split]].
      * destruct l; discriminate.
      * apply sorted_snoc; [assumption |]. intros j Hj. apply Hmem in Hj. tauto.
      * assumption.
      * intros j. rewrite in_app_iff, Hmem. simpl. split.
        -- intros [[Hj Hex] | [<- | []]]; [split; [lia | assumption] |].
           split; [lia |]. right. exists v. auto.
        -- intros [Hj Hex]. destruct (Nat.eq_dec j n) as [-> | Hjn]; [auto |].
           left. split; [lia | assumption].
    + split; [discriminate |]. split; [repeat constructor |]. split.
      * exists v. simpl. auto.
      * intros j. simpl. split.
        -- intros [<- | []]. split; [lia | left; reflexivity].
        -- intros [Hj [-> | (vj & Hvj & Hkj)]]; [auto |].
           destruct (Nat.eq_dec j n) as [-> | Hjn]; [auto |]. exfalso.
           destruct (Hcover j ltac:(lia)) as (k0 & l0 & Hin0 & Hj0).
           pose proof (Hnew _ _ Hin0) as Hfalse.
           destruct (Hgroups _ _ Hin0) as (_ & _ & (v0 & Hv0 & Hk0) & Hmem0).
           apply Hmem0 in Hj0.
           destruct Hj0 as [_ [Hfirst | (vj' & Hvj' & Hkj')]].
           ++ rewrite <- Hfirst in Hv0. rewrite Hvj in Hv0. inversion Hv0.
              subst v0 k0. rewrite (key_eqb_sym _ _ Hkj) in Hfalse.
              discriminate.
           ++ rewrite Hvj in Hvj'. inversion Hvj'. subst vj'.
              rewrite (key_eqb_trans _ _ _ Hkj' (key_eqb_sym _ _ Hkj)) in Hfalse.
              discriminate.
    + destruct (Hgroups _ _ Hin) as (Hne & Hsorted & Hfirst & Hmem).
      split; [assumption |]. split; [assumption |]. split; [assumption |].
      intros j. rewrite Hmem. split.
      * intros [Hj Hex]. split; [lia | assumption].
      * intros [Hj Hex]. destruct (Nat.eq_dec j n) as [-> | Hjn].
        -- exfalso. destruct Hex as [Hfirst' | (vj & Hvj & Hkj)].
           ++ assert (Hhd : In (hd 0 indices) indices)
                by (destruct indices; [congruence | left; reflexivity]).
              apply Hmem in Hhd. lia.
           ++ rewrite Hv in Hvj. inversion Hvj. subst. congruence.
        -- split; [lia | assumption].
  - intros j Hj. destruct (Nat.eq_dec j n) as [-> | Hjn].
    + destruct (DictFacts.append_has key_eqb (vertex_key v) n d)
        as (k' & l' & H1 & H2).
      eauto.
    + destruct (Hcover j ltac:(lia)) as (k0 & l0 & Hin0 & Hj0).
      destruct (DictFacts.append_keeps key_eqb (vertex_key v) n d _ _ Hin0)
        as (l' & Hl' & Hsub).
      eauto.
Qed.

Lemma group_from_grouped vs rest :
  forall done d, vs = done ++ rest -> grouped vs (length done) d ->
  grouped vs (length vs) (group_from (length done) rest d).
Proof.
  induction rest as [| v rest IH]; intros done d Hvs Hd; simpl.
  - subst vs. rewrite app_nil_r in *. assumption.
  - specialize (IH (done ++ [v]) (Dict.append key_eqb (vertex_key v) (length done) d)).
    rewrite length_app in IH. simpl in IH. rewrite Nat.add_1_r in IH.
    apply IH.
    + rewrite <- app_assoc. assumption.
    + apply grouped_step; [assumption |]. subst vs.
      rewrite nth_error_app2, Nat.sub_diag; [reflexivity | lia].
Qed.

Lemma vertex_groups_grouped vs : grouped vs (length vs) (vertex_groups vs).
Proof.
  apply (@group_from_grouped vs vs [] []); [reflexivity | apply grouped_init].
Qed.

Lemma group_from_perm rest :
  forall n d,
    Permutation (concat (Dict.values (group_from n rest d)))
                (concat (Dict.values d) ++ seq n (length rest)).
Proof.
  induction rest as [| v rest IH]; intros n d; simpl.
  - rewrite app_nil_r. reflexivity.
  - rewrite IH. rewrite DictFacts.values_append_perm.
    simpl. apply Permutation_middle.
Qed.

(** The index lists together hold each index once. *)
Lemma vertex_groups_perm vs :
  Permutation (concat (Dict.values (vertex_groups vs))) (seq 0 (length vs)).
Proof. apply (group_from_perm vs 0 []). Qed.

(** Every group is not empty, ascends and stays in range. *)
Lemma group_range vs k indices :
  In (k, indices) (vertex_groups vs) ->
  indices <> [] /\ StronglySorted lt indices /\
  forall j, In j indices -> j < length vs.
Proof.
  intros Hin. destruct (vertex_groups_grouped vs) as (_ & Hgroups & _).
  destruct (Hgroups _ _ Hin) as (Hne & Hsorted & _ & Hmem).
  split; [assumption |]. split; [assumption |].
  intros j Hj. apply Hmem in Hj. tauto.
Qed.

(** Two indices share a group exactly when they are one index or their
    keys are equal. *)
Lemma same_group_iff vs i j vi vj :
  nth_error vs i = Some vi -> nth_error vs j = Some vj ->
  (same_group (vertex_groups vs) i j <->
   i = j \/ key_eqb (vertex_key vi) (vertex_key vj) = true).
Proof.
  intros Hi Hj. destruct (vertex_groups_grouped vs) as (Hkeys & Hgroups & Hcover).
  assert (Hlt : i < length vs) by (apply nth_error_Some; congruence).
  assert (Hlt' : j < length vs) by (apply nth_error_Some; congruence).
  split.
  - intros (k & indices & Hin & Hii & Hjj).
    destruct (Hgroups _ _ Hin) as (_ & _ & (v0 & Hv0 & Hk0) & Hmem).
    apply Hmem in Hii, Hjj.
    destruct Hii as [_ [Hfi | (vi' & Hvi' & Hki)]],
             Hjj as [_ [Hfj | (vj' & Hvj' & Hkj)]].
    + left. congruence.
    + right. rewrite <- Hfi in Hv0. rewrite Hi in Hv0. inversion Hv0. subst v0.
      rewrite Hj in Hvj'. inversion Hvj'. subst vj' k. assumption.
    + right. rewrite <- Hfj in Hv0. rewrite Hj in Hv0. inversion Hv0. subst v0.
      rewrite Hi in Hvi'. inversion Hvi'. subst vi' k.
      apply key_eqb_sym. assumption.
    + right. rewrite Hi in Hvi'. rewrite Hj in Hvj'.
      inversion Hvi'. inversion Hvj'. subst.
      eapply key_eqb_trans; [apply key_eqb_sym |]; eassumption.
  - intros [<- | Hk].
    + destruct (Hcover i Hlt) as (k & indices & Hin & Hii).
      exists k, indices. auto.
    + destruct (Hcover i Hlt) as (k & indices & Hin & Hii).
      exists k, indices. split; [assumption |]. split; [assumption |].
      destruct (Hgroups _ _ Hin) as (_ & _ & (v0 & Hv0 & Hk0) & Hmem).
      apply Hmem. split; [assumption |]. right. exists vj.
      split; [assumption |]. apply Hmem in Hii.
      destruct Hii as [_ [Hfi | (vi' & Hvi' & Hki)]].
      * rewrite <- Hfi in Hv0. rewrite Hi in Hv0. inversion Hv0. subst v0 k.
        assumption.
      * rewrite Hi in Hvi'. inversion Hvi'. subst vi'.
        eapply key_eqb_trans; eassumption.
Qed.

Lemma duplicates_found_fold d flag :
  fold_left (fun flag kv => if 1 <? length (snd kv) then true else flag) d flag
  = flag || existsb (fun kv : coord * list nat => 1 <? length (snd kv)) d.
Proof.
  revert flag. induction d as [| kv d IH]; intros flag; simpl.
  - rewrite orb_false_r. reflexivity.
  - rewrite IH. destruct (1 <? length (snd kv)); simpl.
    + rewrite orb_true_r. reflexivity.
    + reflexivity.
Qed.

(** The flag says whether some group has two indices or more. *)
Lemma duplicates_found_iff (d : Dict.t coord) :
  duplicates_found d = true <->
  exists k indices, In (k, indices) d /\ 2 <= length indices.
Proof.
  unfold duplicates_found. rewrite duplicates_found_fold. simpl.
  rewrite existsb_exists. split.
  - intros ([k indices] & Hin & Hlen). apply Nat.ltb_lt in Hlen.
    exists k, indices. auto.
  - intros (k & indices & Hin & Hlen). exists (k, indices).
    split; [assumption |]. apply Nat.ltb_lt. assumption.
Qed.

End GroupTheory.
Import GroupTheory.

(* ================================================================== *)
(** * Facts about the labels and the viewer *)
(* ================================================================== *)

Module ViewerTheory.

Lemma sorted_head_least i0 rest :
  StronglySorted lt (i0 :: rest) -> forall j, In j (i0 :: rest) -> i0 <= j.
Proof.
  intros H j [<- | Hj]; [lia |]. inversion H as [| ? ? _ Hall]. subst.
  rewrite Forall_forall in Hall. apply Hall in Hj. lia.
Qed.

(** The label of a group that is not empty, ascends and stays in range. *)
Lemma label_of_group vs k indices :
  indices <> [] -> StronglySorted lt indices ->
  (forall j, In j indices -> j < length vs) ->
  exists l, label_of vs indices = Some l /\ labelled vs (k, indices) l.
Proof.
  intros Hne Hsorted Hrange. destruct indices as [| i0 rest]; [congruence |].
  assert (Hi0 : i0 < length vs) by (apply Hrange; left; reflexivity).
  destruct (nth_error vs i0) as [v |] eqn:Hv;
    [| apply nth_error_None in Hv; lia].
  unfold label_of. rewrite Hv. destruct rest as [| i1 rest].
  - simpl. eexists. split; [reflexivity |].
    exists i0, []. simpl. repeat split; auto.
    + intros j [<- | []]. lia.
    + congruence.
  - cbn [length Nat.ltb Nat.leb]. eexists. split; [reflexivity |].
    exists i0, (i1 :: rest). cbn [snd vertex label_text label_color].
    repeat split; auto.
    + apply sorted_head_least. assumption.
    + discriminate.
    + discriminate.
Qed.

Lemma labels_of_groups vs (d : Dict.t coord) :
  (forall k indices, In (k, indices) d ->
     indices <> [] /\ StronglySorted lt indices /\
     forall j, In j indices -> j < length vs) ->
  exists ls, labels_of vs (Dict.values d) = Some ls /\
             Forall2 (labelled vs) d ls.
Proof.
  induction d as [| [k indices] d IH]; intros H.
  - exists []. split; [reflexivity | constructor].
  - destruct (H k indices (or_introl eq_refl)) as (Hne & Hsorted & Hrange).
    destruct (@label_of_group vs k indices Hne Hsorted Hrange) as (l & Hl & Hlab).
    destruct IH as (ls & Hls & Hall).
    { intros k' i' Hin. apply (H k' i'). right. assumption. }
    exists (l :: ls). simpl. rewrite Hl, Hls. split; [reflexivity |].
    constructor; assumption.
Qed.

(** The viewer computes a view for every array that is not empty. *)
Lemma viewer_ok vs :
  vs <> [] ->
  exists ls,
    create_interactive_viewer vs
    = Ok (View (vertex_groups vs) (duplicates_found (vertex_groups vs)) ls) /\
    Forall2 (labelled vs) (vertex_groups vs) ls.
Proof.
  intros Hne.
  destruct (@labels_of_groups vs (vertex_groups vs)) as (ls & Hls & Hall).
  { intros k indices Hin. apply (@group_range vs k indices Hin). }
  exists ls. split; [| assumption].
  unfold create_interactive_viewer. destruct vs; [congruence |].
  rewrite Hls. reflexivity.
Qed.

End ViewerTheory.
Import ViewerTheory.

(* ================================================================== *)
(** * The properties of the grouping *)
(* ================================================================== *)

Module GroupingClaims.

(** The numbers of the sample vertices are the decimal numbers they are
    named after, rounded to binary64, and the tolerance of the source is
    its literal. *)
Example sample_numbers :
  map float [txt "0"; txt "1"; txt "2"; txt "3"; txt "9"; txt "4e-7";
             txt "6e-7"; txt "0.1234555"; txt "0.1234565"; txt "0.123456";
             txt "1e-6"]
  = map Some [fl0; fl1; fl2; fl3; fl9; fl4e7; fl6e7; fl1234555; fl1234565;
              fl123456; tolerance].
Proof. vm_compute. reflexivity. Qed.

(** The keys of the sample vertices: [4e-07] goes to zero and [6e-07] to
    the tolerance; the quotients 123455.5 and 123456.5 both round to the
    even 123456. *)
Example sample_keys :
  map quantize [fl4e7; fl6e7; fl1234555; fl1234565]
  = [fl0; tolerance; fl123456; fl123456].
Proof. vm_compute. reflexivity. Qed.

Lemma straddling_near : near (fl4e7, fl0, fl0) (fl6e7, fl0, fl0).
Proof. repeat split. Qed.

Lemma merged_far : far (fl1234555, fl0, fl0) (fl1234565, fl0, fl0).
Proof. left. reflexivity. Qed.

(** C1, as stated, fails in both halves. Two vertices that differ by less
    than the tolerance on every axis can land in different groups: the
    key of [4e-07] is zero and that of [6e-07] the tolerance. Two vertices
    that differ by more than the tolerance on an axis can land in one
    group: [0.1234555] and [0.1234565] both have the key [0.123456]. *)
Lemma C1_counterexample :
  ~ (forall vs i j vi vj,
       nth_error vs i = Some vi -> nth_error vs j = Some vj ->
       near vi vj -> same_group (vertex_groups vs) i j) /\
  ~ (forall vs i j vi vj,
       nth_error vs i = Some vi -> nth_error vs j = Some vj ->
       far vi vj -> ~ same_group (vertex_groups vs) i j).
Proof.
  split; intros H.
  - pose proof (H straddling 0 1 _ _ eq_refl eq_refl straddling_near) as Hsame.
    apply (@same_group_iff straddling 0 1 _ _ eq_refl eq_refl) in Hsame.
    destruct Hsame as [Hsame | Hsame]; [discriminate |].
    vm_compute in Hsame. discriminate.
  - apply (H merged 0 1 _ _ eq_refl eq_refl merged_far).
    apply (@same_group_iff merged 0 1 _ _ eq_refl eq_refl).
    right. vm_compute. reflexivity.
Qed.

(** C1, amended: two vertices of different indices are in the same group
    exactly when their keys are equal, the key of an axis being
    [np.round(x / tolerance) * tolerance] as binary64 computes it. Hence
    two vertices that are equal as numbers on every axis are in the same
    group. The rounding of the quotient is to a nearest integer, and to
    the even one of two that are equally near. *)
Theorem C1_tolerance_boundary vs i j vi vj :
  nth_error vs i = Some vi -> nth_error vs j = Some vj ->
  (same_group (vertex_groups vs) i j <->
   i = j \/ key_eqb (vertex_key vi) (vertex_key vj) = true) /\
  (key_eqb vi vj = true -> same_group (vertex_groups vs) i j) /\
  (forall m d, (0 < d)%Z ->
     (Z.abs (2 * m - 2 * round_half_even m d * d) <= d)%Z /\
     (Z.abs (2 * m - 2 * round_half_even m d * d) = d ->
      Z.even (round_half_even m d) = true)%Z).
Proof.
  intros Hi Hj. split; [| split].
  - apply (@same_group_iff vs i j vi vj Hi Hj).
  - intros H. apply (@same_group_iff vs i j vi vj Hi Hj). right.
    apply vertex_key_eqb. assumption.
  - apply round_half_even_spec.
Qed.

Lemma C1_tolerance_boundary_witness :
  (same_group (vertex_groups merged) 0 1 <->
   0 = 1 \/ key_eqb (vertex_key (fl1234555, fl0, fl0))
                    (vertex_key (fl1234565, fl0, fl0)) = true) /\
  (key_eqb (fl1234555, fl0, fl0) (fl1234565, fl0, fl0) = true ->
   same_group (vertex_groups merged) 0 1) /\
  (forall m d, (0 < d)%Z ->
     (Z.abs (2 * m - 2 * round_half_even m d * d) <= d)%Z /\
     (Z.abs (2 * m - 2 * round_half_even m d * d) = d ->
      Z.even (round_half_even m d) = true)%Z).
Proof.
  apply (@C1_tolerance_boundary merged 0 1); reflexivity.
Defined.

(** C3: for an array that is not empty the viewer computes its groups, the
    index lists of the groups together hold every index of
    0 .. N-1 exactly once, and any other run on the same array gives the
    same groups and the same labels. *)
Theorem C3_partition vs :
  vs <> [] ->
  exists out,
    create_interactive_viewer vs = Ok out /\
    Permutation (concat (Dict.values (groups out))) (seq 0 (length vs)) /\
    (forall out', create_interactive_viewer vs = Ok out' ->
                  groups out' = groups out /\ labels out' = labels out).
Proof.
  intros Hne. destruct (viewer_ok Hne) as (ls & Hrun & _).
  eexists. split; [exact Hrun |]. split.
  - apply vertex_groups_perm.
  - intros out' Hrun'. rewrite Hrun in Hrun'. inversion Hrun'. auto.
Qed.

Lemma C3_partition_witness :
  exists out,
    create_interactive_viewer ten = Ok out /\
    Permutation (concat (Dict.values (groups out))) (seq 0 (length ten)) /\
    (forall out', create_interactive_viewer ten = Ok out' ->
                  groups out' = groups out /\ labels out' = labels out).
Proof. apply (@C3_partition ten). discriminate. Defined.

(** C7: every group is labelled at the vertex of its least index; the
    text of the label is the indices of the group in ascending order
    joined with commas, which for a group of one index i is the decimal
    string of i. *)
Theorem C7_labels vs :
  vs <> [] ->
  exists out,
    create_interactive_viewer vs = Ok out /\
    Forall2 (labelled vs) (groups out) (labels out).
Proof.
  intros Hne. destruct (viewer_ok Hne) as (ls & Hrun & Hall).
  eexists. split; [exact Hrun | exact Hall].
Qed.

Lemma C7_labels_witness :
  exists out,
    create_interactive_viewer ten = Ok out /\
    Forall2 (labelled ten) (groups out) (labels out).
Proof. apply (@C7_labels ten). discriminate. Defined.

(** The labels of the ten vertices: the group of 2, 6 and 9 reads
    "2,6,9" and sits at vertex 2, a lone index reads as itself. *)
Example labels_of_ten :
  match create_interactive_viewer ten with
  | Ok out => map (fun l => (vertex l, label_text l, label_color l)) (labels out)
  | Raise _ => []
  end
  = [((fl0, fl0, fl0), "0", blue); ((fl1, fl0, fl0), "1", blue);
     ((fl1, fl1, fl0), "2,6,9", red); ((fl0, fl1, fl0), "3", blue);
     ((fl0, fl0, fl1), "4", blue); ((fl1, fl0, fl1), "5", blue);
     ((fl0, fl1, fl1), "7", blue); ((fl2, fl0, fl0), "8", blue)]%string.
Proof. vm_compute. reflexivity. Qed.

(** C8, as stated, fails in its second half: the two vertices of [merged]
    differ by more than the tolerance on the first axis, and the flag is
    set. *)
Lemma C8_counterexample :
  ~ (forall vs out,
       create_interactive_viewer vs = Ok out ->
       (has_duplicates out = true <->
        exists k indices, In (k, indices) (groups out) /\ 2 <= length indices) /\
       ((forall i j vi vj, i <> j -> nth_error vs i = Some vi ->
                           nth_error vs j = Some vj -> far vi vj) ->
        has_duplicates out = false)).
Proof.
  intros H.
  destruct (create_interactive_viewer merged) as [out |] eqn:E;
    [| vm_compute in E; discriminate].
  destruct (H merged out E) as [_ Hfar].
  assert (Hflag : has_duplicates out = true)
    by (vm_compute in E; inversion E; reflexivity).
  rewrite Hfar in Hflag; [discriminate |].
  intros i j vi vj Hij Hi Hj.
  destruct i as [| [| i]], j as [| [| j]]; simpl in Hi, Hj;
    try congruence; inversion Hi; inversion Hj; subst;
    try (destruct i; discriminate); try (destruct j; discriminate).
  - left. reflexivity.
  - left. reflexivity.
Qed.

(** C8, amended: the flag of the view is set exactly when some group has
    two indices or more, which is exactly when two vertices of different
    indices have equal keys; so it is not set when the keys differ two by
    two, and it is set when two vertices are equal as numbers on every
    axis. *)
Theorem C8_has_duplicates vs :
  vs <> [] ->
  exists out,
    create_interactive_viewer vs = Ok out /\
    (has_duplicates out = true <->
     exists k indices, In (k, indices) (groups out) /\ 2 <= length indices) /\
    (has_duplicates out = true <->
     exists i j vi vj, i <> j /\ nth_error vs i = Some vi /\
                       nth_error vs j = Some vj /\
                       key_eqb (vertex_key vi) (vertex_key vj) = true) /\
    (forall i j vi vj, i <> j -> nth_error vs i = Some vi ->
                       nth_error vs j = Some vj -> key_eqb vi vj = true ->
                       has_duplicates out = true).
Proof.
  intros Hne. destruct (viewer_ok Hne) as (ls & Hrun & _).
  eexists. split; [exact Hrun |]. cbn [has_duplicates groups].
  assert (Hkeys : duplicates_found (vertex_groups vs) = true <->
     exists i j vi vj, i <> j /\ nth_error vs i = Some vi /\
                       nth_error vs j = Some vj /\
                       key_eqb (vertex_key vi) (vertex_key vj) = true).
  { rewrite duplicates_found_iff. split.
    - intros (k & indices & Hin & Hlen).
      destruct (@group_range vs k indices Hin) as (_ & Hsorted & Hrange).
      destruct indices as [| i0 [| i1 rest]]; simpl in Hlen; try lia.
      assert (H0 : In i0 (i0 :: i1 :: rest)) by (left; reflexivity).
      assert (H1 : In i1 (i0 :: i1 :: rest)) by (right; left; reflexivity).
      assert (Hlt : i0 < i1).
      { inversion Hsorted as [| ? ? _ Hall]. inversion Hall. assumption. }
      destruct (nth_error vs i0) as [v0 |] eqn:Hv0;
        [| apply nth_error_None in Hv0; apply Hrange in H0; lia].
      destruct (nth_error vs i1) as [v1 |] eqn:Hv1;
        [| apply nth_error_None in Hv1; apply Hrange in H1; lia].
      assert (Hsame : same_group (vertex_groups vs) i0 i1) by (exists k; eauto).
      apply (@same_group_iff vs i0 i1 v0 v1 Hv0 Hv1) in Hsame.
      destruct Hsame as [Heq | Hk]; [lia |].
      exists i0, i1, v0, v1. repeat split; try assumption; lia.
    - intros (i & j & vi & vj & Hij & Hi & Hj & Hk).
      assert (Hsame : same_group (vertex_groups vs) i j)
        by (apply (@same_group_iff vs i j vi vj Hi Hj); right; assumption).
      destruct Hsame as (k & indices & Hin & Hii & Hjj).
      exists k, indices. split; [assumption |].
      destruct indices as [| a [| b l]]; simpl in *; [tauto | | lia].
      destruct Hii as [<- | []], Hjj as [<- | []]. congruence. }
  split; [apply duplicates_found_iff |]. split; [exact Hkeys |].
  intros i j vi vj Hij Hi Hj Hk. apply Hkeys.
  exists i, j, vi, vj. repeat split; try assumption.
  apply vertex_key_eqb. assumption.
Qed.

Lemma C8_has_duplicates_witness :
  exists out,
    create_interactive_viewer ten = Ok out /\
    (has_duplicates out = true <->
     exists k indices, In (k, indices) (groups out) /\ 2 <= length indices) /\
    (has_duplicates out = true <->
     exists i j vi vj, i <> j /\ nth_error ten i = Some vi /\
                       nth_error ten j = Some vj /\
                       key_eqb (vertex_key vi) (vertex_key vj) = true) /\
    (forall i j vi vj, i <> j -> nth_error ten i = Some vi ->
                       nth_error ten j = Some vj -> key_eqb vi vj = true ->
                       has_duplicates out = true).
Proof. apply (@C8_has_duplicates ten). discriminate. Defined.

End GroupingClaims.

(* ================================================================== *)
(** * The properties of the parser *)
(* ================================================================== *)

Module ParseClaims.

Lemma starts_with_iff l s : starts_with l s = true <-> exists r, s = l ++ r.
Proof.
  revert s. induction l as [| a l IH]; intros s; simpl.
  - split; [eauto | reflexivity].
  - destruct s as [| c s].
    + split; [discriminate | intros [r H]; discriminate].
    + rewrite andb_true_iff, N.eqb_eq, IH. split.
      * intros [-> [r ->]]. eauto.
      * intros [r H]. inversion H. eauto.
Qed.

(** A check that decides where the body of the section ends. *)
Lemma first_close_check close body tail :
  closes_within close (body ++ close ++ tail) (length body) = false ->
  first_close close body tail.
Proof.
  unfold first_close. induction body as [| c body IH]; intros H b1 r1 Heq.
  - simpl. lia.
  - simpl in H. apply orb_false_iff in H. destruct H as [Hhere Hlater].
    destruct b1 as [| c1 b1].
    + exfalso. simpl in Heq.
      assert (Hs : starts_with close (c :: body ++ close ++ tail) = true)
        by (apply starts_with_iff; exists r1; auto).
      cbn [app] in Hhere. congruence.
    + inversion Heq. subst. simpl. apply le_n_S. eapply IH; eauto.
Qed.

(** The search for the section fails exactly on the texts without one. *)
Lemma search_section_None s :
  search vertices_section s = None <-> ~ has_section s.
Proof.
  rewrite search_None. split.
  - intros H (pre & ws & body & tail & -> & Hws).
    assert (Hin : In (body, tail)
              (vertices_section (txt "vertices" ++ ws ++ txt "(" ++ body
                                 ++ txt ");" ++ tail)))
      by (apply vertices_section_in; eauto).
    rewrite (H pre _ eq_refl) in Hin. destruct Hin.
  - intros H a b ->.
    destruct (vertices_section b) as [| [body tail] l] eqn:E; [reflexivity |].
    exfalso. apply H.
    assert (Hin : In (body, tail) (vertices_section b))
      by (rewrite E; left; reflexivity).
    apply vertices_section_in in Hin. destruct Hin as (ws & Hws & ->).
    exists a, ws, body, tail. auto.
Qed.

(** The parser after the section has been found. *)
Lemma parse_with_span content span rest :
  search vertices_section (remove_comments content) = Some (span, rest) ->
  exists vs,
    floats (findall coord_pattern span) = Some vs /\
    length vs = length (findall coord_pattern span) /\
    parse_blockmesh_dict content
    = match vs with
      | [] => Raise (ValueError no_coords_msg)
      | _ => Ok vs
      end.
Proof.
  intros H. destruct (floats_findall span) as (vs & Hvs & Hlen).
  exists vs. split; [assumption |]. split; [assumption |].
  unfold parse_blockmesh_dict. rewrite H.
  destruct (findall coord_pattern span) as [| m ms] eqn:E.
  - destruct vs; [reflexivity | discriminate].
  - rewrite Hvs. destruct vs; [discriminate | reflexivity].
Qed.

(** The section found when no opener comes before the one given. *)
Lemma search_first_opener pre ws body tail :
  all is_space ws -> first_close (txt ");") body tail ->
  (forall a b, pre = a ++ b -> b <> [] ->
     ~ opener (b ++ txt "vertices" ++ ws ++ txt "(" ++ body
               ++ txt ");" ++ tail)) ->
  search vertices_section
    (pre ++ txt "vertices" ++ ws ++ txt "(" ++ body ++ txt ");" ++ tail)
  = Some (body, tail).
Proof.
  intros Hws Hclose Hpre. rewrite search_skip.
  - apply search_here. apply vertices_section_first; assumption.
  - intros a b Hab Hb. apply vertices_section_nil. eapply Hpre; eauto.
Qed.

(** The example of the specification: a triplet in a line comment is not
    extracted. *)
Example line_comment_example :
  parse_blockmesh_dict
    (txt "vertices ( (0 0 0) // (9 9 9)" ++ [LF] ++ txt "(1 0 0) );")
  = Ok [(fl0, fl0, fl0); (fl1, fl0, fl0)].
Proof. vm_compute. reflexivity. Qed.

(** C2: a triplet inside a block comment is extracted when the comment
    holds [//] before its end on the same line and no [*/] follows: the
    line comments are removed first, which takes the end of the block
    comment away, and then the block comment is not recognised. *)
Theorem C2_block_comment_holding_slashes :
  remove_comments
    (txt "vertices ( (0 0 0) /* (9 9 9) // c */" ++ [LF] ++ txt "(1 0 0) );")
  = txt "vertices ( (0 0 0) /* (9 9 9) " ++ [LF] ++ txt "(1 0 0) );"
  /\
  parse_blockmesh_dict
    (txt "vertices ( (0 0 0) /* (9 9 9) // c */" ++ [LF] ++ txt "(1 0 0) );")
  = Ok [(fl0, fl0, fl0); (fl9, fl9, fl9); (fl1, fl0, fl0)].
Proof. split; vm_compute; reflexivity. Qed.

(** The same slip can take a vertex away: the first block comment has lost
    its end and runs to the end of the second one. *)
Example block_comment_swallows_vertex :
  parse_blockmesh_dict
    (txt "vertices ( (0 0 0) /* a // b */" ++ [LF] ++ txt "(1 0 0) /* c */ );")
  = Ok [(fl0, fl0, fl0)].
Proof. vm_compute. reflexivity. Qed.

(** Comments that hold no slash are removed, triplets inside them
    included. *)
Example well_commented_example :
  well_commented commented_pieces /\
  parse_blockmesh_dict (render commented_pieces) = Ok [(fl0, fl0, fl0); (fl1, fl0, fl0)].
Proof.
  split; [| vm_compute; reflexivity].
  cbn [well_commented commented_pieces].
  repeat split; try exact I;
    intros H; vm_compute in H; repeat destruct H as [H | H]; try discriminate H;
    try contradiction.
Qed.

(** C4: the parser raises exactly when the text without its comments has
    no vertices section, or has one whose span holds no well-formed
    triplet; the first case gives the one message, the second the other,
    and an array that is returned has one row at least. *)
Theorem C4_parse_errors content :
  ((exists e, parse_blockmesh_dict content = Raise e) <->
   (~ has_section (remove_comments content) \/
    exists span rest,
      search vertices_section (remove_comments content) = Some (span, rest) /\
      triplet_free span)) /\
  (~ has_section (remove_comments content) ->
   parse_blockmesh_dict content = Raise (ValueError no_section_msg)) /\
  (forall span rest,
     search vertices_section (remove_comments content) = Some (span, rest) ->
     triplet_free span ->
     parse_blockmesh_dict content = Raise (ValueError no_coords_msg)) /\
  (forall vs, parse_blockmesh_dict content = Ok vs -> 1 <= length vs).
Proof.
  assert (Hnone : ~ has_section (remove_comments content) ->
                  parse_blockmesh_dict content = Raise (ValueError no_section_msg)).
  { intros H. apply search_section_None in H.
    unfold parse_blockmesh_dict. rewrite H. reflexivity. }
  assert (Hfree : forall span rest,
     search vertices_section (remove_comments content) = Some (span, rest) ->
     triplet_free span ->
     parse_blockmesh_dict content = Raise (ValueError no_coords_msg)).
  { intros span rest H Hfree. apply findall_nil_iff in Hfree.
    unfold parse_blockmesh_dict. rewrite H, Hfree. reflexivity. }
  split; [| split; [assumption | split; [assumption |]]].
  - split.
    + intros [e He].
      destruct (search vertices_section (remove_comments content))
        as [[span rest] |] eqn:E.
      * right. exists span, rest. split; [reflexivity |].
        destruct (parse_with_span content E) as (vs & Hvs & Hlen & Hparse).
        rewrite Hparse in He. destruct vs; [| discriminate].
        apply findall_nil_iff.
        destruct (findall coord_pattern span); [reflexivity | discriminate].
      * left. apply search_section_None. assumption.
    + intros [H | (span & rest & H & Hf)]; eauto.
  - intros vs Hok.
    destruct (search vertices_section (remove_comments content))
      as [[span rest] |] eqn:E.
    + destruct (parse_with_span content E) as (vs' & _ & _ & Hparse).
      rewrite Hparse in Hok. destruct vs'; [discriminate |].
      inversion Hok. simpl. lia.
    + unfold parse_blockmesh_dict in Hok. rewrite E in Hok. discriminate.
Qed.

(** The parser on a span laid out as triplets. *)
Lemma parse_laid_out content pre ws g0 items tail :
  remove_comments content
  = pre ++ txt "vertices" ++ ws ++ txt "(" ++ (g0 ++ laid_out items)
    ++ txt ");" ++ tail ->
  all is_space ws ->
  first_close (txt ");") (g0 ++ laid_out items) tail ->
  (forall a b, pre = a ++ b -> b <> [] ->
     ~ opener (b ++ txt "vertices" ++ ws ++ txt "(" ++ (g0 ++ laid_out items)
               ++ txt ");" ++ tail)) ->
  triplet_free g0 -> Forall well_formed items -> items <> [] ->
  exists vs,
    parse_blockmesh_dict content = Ok vs /\
    floats (numbers_of items) = Some vs /\
    length vs = length items.
Proof.
  intros Hs Hws Hclose Hpre Hg0 Hitems Hne.
  assert (Hsearch : search vertices_section (remove_comments content)
                    = Some (g0 ++ laid_out items, tail)).
  { rewrite Hs. apply search_first_opener; assumption. }
  destruct (parse_with_span content Hsearch) as (vs & Hvs & Hlen & Hparse).
  rewrite (findall_laid_out Hg0 Hitems) in Hvs, Hlen.
  unfold numbers_of in Hlen at 1. rewrite length_map in Hlen.
  exists vs. split; [| split; assumption].
  rewrite Hparse. destruct vs; [| reflexivity].
  destruct items; [congruence | discriminate].
Qed.

(** The parser sees its input through the removal of comments only. *)
Lemma parse_only_stripped a b :
  remove_comments a = remove_comments b ->
  parse_blockmesh_dict a = parse_blockmesh_dict b.
Proof. intros H. unfold parse_blockmesh_dict. rewrite H. reflexivity. Qed.

(** When the span of the section is laid out as N triplets, N at least
    one, with text free of triplets before, between and after them, the
    parser returns N vertices, the values of the triplets in their order
    from left to right. The span is that of the text without its
    comments, and every input with well placed comments around the same
    text parses to the same vertices. *)
Lemma order_of_appearance content pre ws g0 items tail :
  remove_comments content
  = pre ++ txt "vertices" ++ ws ++ txt "(" ++ (g0 ++ laid_out items)
    ++ txt ");" ++ tail ->
  all is_space ws ->
  first_close (txt ");") (g0 ++ laid_out items) tail ->
  (forall a b, pre = a ++ b -> b <> [] ->
     ~ opener (b ++ txt "vertices" ++ ws ++ txt "(" ++ (g0 ++ laid_out items)
               ++ txt ");" ++ tail)) ->
  triplet_free g0 -> Forall well_formed items -> items <> [] ->
  exists vs,
    parse_blockmesh_dict content = Ok vs /\
    floats (numbers_of items) = Some vs /\
    length vs = length items /\
    (forall ps, well_commented ps -> stripped ps = remove_comments content ->
                parse_blockmesh_dict (render ps) = Ok vs).
Proof.
  intros Hs Hws Hclose Hpre Hg0 Hitems Hne.
  destruct (parse_laid_out content Hs Hws Hclose Hpre Hg0 Hitems Hne)
    as (vs & Hparse & Hvs & Hlen).
  exists vs. repeat split; try assumption.
  intros ps Hps Hstripped. rewrite <- Hparse. apply parse_only_stripped.
  rewrite remove_comments_pieces; assumption.
Qed.

(** C5: with comments between its triplets an input can lose a vertex.
    The input below holds two triplets and two block comments; with the
    comments taken away it parses to the two vertices in their order. The
    parser returns the first vertex only: the first substitution takes
    [// b */] for a line comment, so the first block comment has lost its
    end and the second substitution removes the text up to the end of the
    second comment, the second triplet included. *)
Theorem C5_comments_between_triplets :
  render interleaved_pieces
  = txt "vertices ( (0 0 0) /* a // b */" ++ [LF] ++ txt "(1 0 0) /* c */ );"
  /\
  parse_blockmesh_dict (stripped interleaved_pieces)
  = Ok [(fl0, fl0, fl0); (fl1, fl0, fl0)]
  /\
  remove_comments (render interleaved_pieces) = txt "vertices ( (0 0 0)  );"
  /\
  parse_blockmesh_dict (render interleaved_pieces) = Ok [(fl0, fl0, fl0)].
Proof. repeat split; vm_compute; reflexivity. Qed.

(** C6: the example of the specification parses to its two well-formed
    triplets, the group between them is no triplet, and in general the
    scan passes over any text free of triplets between two triplets. *)
Theorem C6_malformed_skipped :
  parse_blockmesh_dict (txt "vertices ( (0 0 0) (bad val here) (1 1 1) );")
  = Ok [(fl0, fl0, fl0); (fl1, fl1, fl1)] /\
  triplet_free (txt "(bad val here)") /\
  (forall t1 xyz1 g t2 xyz2,
     triplet t1 xyz1 -> triplet t2 xyz2 -> triplet_free g ->
     findall coord_pattern (t1 ++ g ++ t2) = [xyz1; xyz2]).
Proof.
  split; [vm_compute; reflexivity |]. split.
  - apply findall_nil_iff. vm_compute. reflexivity.
  - intros t1 xyz1 g t2 xyz2 H1 H2 Hg.
    assert (Hfree : triplet_free []).
    { intros a t b xyz H Ht. symmetry in H. apply app_eq_nil in H.
      destruct H as [_ H]. apply app_eq_nil in H. destruct H as [-> _].
      apply triplet_nonempty in Ht. congruence. }
    pose proof (@findall_laid_out [] [(t1, xyz1, g); (t2, xyz2, [])] Hfree) as E.
    rewrite !laid_out_cons in E. unfold laid_out in E. simpl in E.
    rewrite app_nil_r in E. apply E.
    repeat constructor; assumption.
Qed.

(** C10: the keyword is looked for as a plain substring. Whatever text
    [pre] comes before it, a letter included, the first place where
    [vertices], blanks and an open parenthesis stand begins the span, and
    the span runs to the first [");"] after it. *)
Theorem C10_no_word_boundary pre ws body tail :
  all is_space ws -> first_close (txt ");") body tail ->
  (forall a b, pre = a ++ b -> b <> [] ->
     ~ opener (b ++ txt "vertices" ++ ws ++ txt "(" ++ body
               ++ txt ");" ++ tail)) ->
  search vertices_section
    (pre ++ txt "vertices" ++ ws ++ txt "(" ++ body ++ txt ");" ++ tail)
  = Some (body, tail).
Proof. apply search_first_opener. Qed.

(** The keyword inside a longer identifier starts the span. *)
Example myvertices_example :
  parse_blockmesh_dict (txt "myvertices ( (1 2 3) ); vertices ( (4 5 6) );")
  = Ok [(fl1, fl2, fl3)].
Proof. vm_compute. reflexivity. Qed.

Lemma triplet_of_match t xyz : In (xyz, []) (coord_pattern t) -> triplet t xyz.
Proof.
  intros H. apply coord_pattern_in in H. destruct H as (t' & Ht & ->).
  rewrite app_nil_r. assumption.
Qed.

Lemma C10_no_word_boundary_witness :
  search vertices_section
    (txt "my" ++ txt "vertices" ++ txt " " ++ txt "(" ++ txt " (1 2 3) "
     ++ txt ");" ++ txt " vertices ( (4 5 6) );")
  = Some (txt " (1 2 3) ", txt " vertices ( (4 5 6) );").
Proof.
  apply C10_no_word_boundary.
  - repeat constructor.
  - apply first_close_check. vm_compute. reflexivity.
  - intros a b Hab Hb (ws & r & Heq & _).
    change (txt "my") with [109%N; 121%N] in Hab.
    destruct a as [| c0 [| c1 [| c2 a]]]; simpl in Hab; inversion Hab; subst;
      try (elim Hb; reflexivity); cbn in Heq; discriminate Heq.
Defined.

Example order_of_appearance_example :
  exists vs,
    parse_blockmesh_dict
      (txt "vertices ( (0 0 0) // (9 9 9)" ++ [LF] ++ txt "(1 0 0) );")
    = Ok vs /\
    floats (numbers_of example_items) = Some vs /\
    length vs = length example_items /\
    (forall ps, well_commented ps ->
       stripped ps
       = remove_comments
           (txt "vertices ( (0 0 0) // (9 9 9)" ++ [LF] ++ txt "(1 0 0) );") ->
       parse_blockmesh_dict (render ps) = Ok vs).
Proof.
  apply (@order_of_appearance _ [] (txt " ") (txt " ") example_items []).
  - vm_compute. reflexivity.
  - repeat constructor.
  - apply first_close_check. vm_compute. reflexivity.
  - intros a b Hab Hb. symmetry in Hab. apply app_eq_nil in Hab.
    destruct Hab as [_ ->]. congruence.
  - apply findall_nil_iff. vm_compute. reflexivity.
  - repeat constructor;
      try (apply triplet_of_match; vm_compute; left; reflexivity);
      apply findall_nil_iff; vm_compute; reflexivity.
  - discriminate.
Defined.

End ParseClaims.

(* ================================================================== *)
(** * The properties of main *)
(* ================================================================== *)

Module MainClaims.
Import Main.

(** C9: whatever is raised while the file is opened, read and parsed is
    caught: [main] prints one message and returns 1; this holds for an
    [OSError] of [open] as for the two errors of the parser. What is raised
    once the vertices are parsed, by the viewer or by the plotting backend,
    leaves [main] uncaught. *)
Theorem C9_main_errors (read_file : string -> result text)
    (backend : view -> option exn) (input : string) :
  (forall e, parse_file read_file input = Raise e ->
     main read_file backend input
     = ([("Error parsing blockMeshDict: " ++ exn_message e)%string], Return 1))
  /\
  (forall msg, read_file input = Raise (OSError msg) ->
     main read_file backend input
     = ([("Error parsing blockMeshDict: " ++ msg)%string], Return 1))
  /\
  (forall vs e, parse_file read_file input = Ok vs ->
     create_interactive_viewer vs = Raise e ->
     main read_file backend input = ([], Uncaught e))
  /\
  (forall vs v e, parse_file read_file input = Ok vs ->
     create_interactive_viewer vs = Ok v -> backend v = Some e ->
     main read_file backend input = ([], Uncaught e))
  /\
  (forall vs v, parse_file read_file input = Ok vs ->
     create_interactive_viewer vs = Ok v -> backend v = None ->
     main read_file backend input = ([], Return 0)).
Proof.
  unfold main. repeat split.
  - intros e ->. reflexivity.
  - intros msg H. unfold parse_file. rewrite H. reflexivity.
  - intros vs e -> ->. reflexivity.
  - intros vs v e -> -> ->. reflexivity.
  - intros vs v -> -> ->. reflexivity.
Qed.

Example main_missing_file :
  main (one_file "blockMeshDict" (txt "vertices ( (0 0 0) );")) no_display
       "nowhere"
  = (["Error parsing blockMeshDict: [Errno 2] No such file or directory"%string],
     Return 1).
Proof. reflexivity. Qed.

Example main_no_section :
  main (one_file "blockMeshDict" (txt "edges ( );")) no_display "blockMeshDict"
  = (["Error parsing blockMeshDict: Could not find 'vertices' section in blockMeshDict"%string],
     Return 1).
Proof. vm_compute. reflexivity. Qed.

Example main_backend_raises :
  main (one_file "blockMeshDict" (txt "vertices ( (0 0 0) );")) no_display
       "blockMeshDict"
  = ([], Uncaught (BackendError "cannot connect to display")).
Proof. vm_compute. reflexivity. Qed.

End MainClaims.

(* ================================================================== *)
(** * Further facts about the grouping *)
(* ================================================================== *)

Module GroupingFacts.

Lemma append_first_indices (d : Dict.t coord) k i :
  (forall kv, In kv d -> snd kv <> []) ->
  (first_indices (Dict.append key_eqb k i d) = first_indices d \/
   first_indices (Dict.append key_eqb k i d) = first_indices d ++ [i]) /\
  (forall kv, In kv (Dict.append key_eqb k i d) -> snd kv <> []).
Proof.
  induction d as [| [k0 l0] d IH]; intros Hne; simpl.
  - split; [right; reflexivity |]. intros kv [<- | []]. discriminate.
  - assert (Hl0 : l0 <> []) by (apply (Hne (k0, l0)); left; reflexivity).
    destruct (key_eqb k0 k); simpl.
    + split.
      * left. destruct l0; [congruence | reflexivity].
      * intros kv [<- | Hin]; [destruct l0; discriminate |].
        apply Hne. right. assumption.
    + destruct IH as [IH1 IH2]; [intros kv Hin; apply Hne; right; assumption |].
      split.
      * destruct IH1 as [-> | ->]; [left | right]; reflexivity.
      * intros kv [<- | Hin]; [assumption | auto].
Qed.

(** The groups stand in the order of their first indices. *)
Lemma group_from_first_indices rest :
  forall n d,
    (forall kv, In kv d -> snd kv <> []) ->
    StronglySorted lt (first_indices d) ->
    Forall (fun h => h < n) (first_indices d) ->
    StronglySorted lt (first_indices (group_from n rest d)).
Proof.
  induction rest as [| v rest IH]; intros n d Hne Hsorted Hlt; simpl.
  - assumption.
  - destruct (@append_first_indices d (vertex_key v) n Hne) as [[E | E] Hne'].
    + apply IH; [assumption | rewrite E; assumption |].
      rewrite E. eapply Forall_impl; [| exact Hlt]. simpl. intros. lia.
    + apply IH; [assumption | rewrite E |].
      * apply sorted_snoc; [assumption |]. rewrite Forall_forall in Hlt.
        assumption.
      * rewrite E. apply Forall_app. split.
        -- eapply Forall_impl; [| exact Hlt]. simpl. intros. lia.
        -- constructor; [lia | constructor].
Qed.

Lemma concat_length_nonempty (ls : list (list nat)) :
  (forall l, In l ls -> l <> []) ->
  length ls <= length (concat ls) /\
  (length (concat ls) = length ls <-> forall l, In l ls -> length l <= 1).
Proof.
  induction ls as [| l ls IH]; intros Hne; simpl.
  - split; [lia |]. split; [intros _ l [] | reflexivity].
  - destruct IH as [IH1 IH2]; [intros l' Hl'; apply Hne; right; assumption |].
    assert (Hl : 1 <= length l).
    { specialize (Hne l (or_introl eq_refl)). destruct l; simpl; [congruence | lia]. }
    rewrite length_app. split; [lia |]. split.
    + intros E l' [<- | Hl']; [lia |]. apply IH2; [lia | assumption].
    + intros Hall.
      assert (length l <= 1) by (apply Hall; left; reflexivity).
      assert (length (concat ls) = length ls)
        by (apply IH2; intros l' Hl'; apply Hall; right; assumption).
      lia.
Qed.

Lemma duplicates_found_false (d : Dict.t coord) :
  duplicates_found d = false <->
  forall l, In l (Dict.values d) -> length l <= 1.
Proof.
  split.
  - intros H l Hl. unfold Dict.values in Hl. apply in_map_iff in Hl.
    destruct Hl as ([k l'] & <- & Hin). simpl.
    destruct (le_lt_dec (length l') 1) as [Hle | Hgt]; [assumption |].
    exfalso. assert (Ht : duplicates_found d = true).
    { apply duplicates_found_iff. exists k, l'. split; [assumption | lia]. }
    congruence.
  - intros H. destruct (duplicates_found d) eqn:E; [| reflexivity].
    apply duplicates_found_iff in E. destruct E as (k & l & Hin & Hlen).
    assert (length l <= 1).
    { apply H. unfold Dict.values. apply in_map_iff. exists (k, l). auto. }
    lia.
Qed.

End GroupingFacts.
Import GroupingFacts.

(* ================================================================== *)
(** * Further properties: groups, keys, labels and the report *)
(* ================================================================== *)

Module GroupingMore.

Lemma distinct_keys_nth (d : Dict.t coord) a b ga gb :
  distinct_keys key_eqb d -> a < b ->
  nth_error d a = Some ga -> nth_error d b = Some gb ->
  key_eqb (fst ga) (fst gb) = false.
Proof.
  unfold distinct_keys. intros Hd. revert a b.
  induction Hd as [| g d Hg Hd IH]; intros a b Hab Ha Hb.
  - destruct a; discriminate.
  - destruct b as [| b]; [lia |]. simpl in Hb. destruct a as [| a].
    + simpl in Ha. inversion Ha. subst. rewrite Forall_forall in Hg.
      apply Hg. eapply nth_error_In. eassumption.
    + simpl in Ha. apply (IH a b); [lia | assumption | assumption].
Qed.

Lemma Forall2_nth_right A B (R : A -> B -> Prop) l1 l2 n y :
  Forall2 R l1 l2 -> nth_error l2 n = Some y ->
  exists x, nth_error l1 n = Some x /\ R x y.
Proof.
  intros H. revert n. induction H as [| x y' l1 l2 Hxy H IH]; intros n Hn.
  - destruct n; discriminate.
  - destruct n as [| n]; simpl in *.
    + inversion Hn. subst. eauto.
    + apply IH. assumption.
Qed.

Lemma warnings_spec vs (d : Dict.t coord) :
  (forall k indices, In (k, indices) d ->
     indices <> [] /\ forall j, In j indices -> j < length vs) ->
  exists ws, warnings vs d = Some ws /\ reported ws = duplicated d /\
             Forall (warning_ok vs) ws.
Proof.
  induction d as [| [k l] d IH]; intros H.
  - exists []. repeat split. constructor.
  - destruct IH as (ws & Hws & Hrep & Hok).
    { intros k' l' Hin. apply (H k' l'). right. assumption. }
    destruct (H k l (or_introl eq_refl)) as [Hne Hrange].
    unfold duplicated. cbn [warnings flat_map snd]. fold (duplicated d).
    destruct (1 <? length l) eqn:E.
    + destruct l as [| i0 rest]; [congruence |].
      assert (Hi0 : i0 < length vs) by (apply Hrange; left; reflexivity).
      destruct (nth_error vs i0) as [v |] eqn:Hv;
        [| apply nth_error_None in Hv; lia].
      rewrite Hws. eexists. split; [reflexivity |]. split.
      * cbn [reported flat_map]. fold (reported ws). rewrite Hrep. reflexivity.
      * constructor; [| assumption]. cbn [warning_ok].
        apply Nat.ltb_lt in E. repeat split; [lia |]. eauto.
    + exists ws. auto.
Qed.

(** The groups that the report warns about, in their order. *)
Lemma warnings_firsts vs (d : Dict.t coord) ws :
  warnings vs d = Some ws ->
  warned ws = filter (fun l => 1 <? length l) (Dict.values d).
Proof.
  revert ws. induction d as [| [k l] d IH]; intros ws H.
  - inversion H. reflexivity.
  - cbn [warnings] in H. unfold Dict.values. cbn [map filter snd].
    fold (Dict.values d). destruct (1 <? length l) eqn:E.
    + destruct l as [| i0 rest]; [discriminate |].
      destruct (nth_error vs i0) as [v |]; [| discriminate].
      destruct (warnings vs d) as [ws' |]; [| discriminate].
      inversion H. subst ws. cbn [warned flat_map app]. fold (warned ws').
      rewrite (IH ws' eq_refl). reflexivity.
    + apply IH. assumption.
Qed.

Lemma sorted_filter_heads (ls : list (list nat)) (p : list nat -> bool) :
  StronglySorted lt (map (hd 0) ls) ->
  StronglySorted lt (map (hd 0) (filter p ls)).
Proof.
  induction ls as [| l ls IH]; intros H; [constructor |].
  simpl in H. inversion H as [| ? ? Hs Hall]. subst. simpl.
  destruct (p l); [| auto]. simpl. constructor; [auto |].
  rewrite Forall_forall in *. intros x Hx. apply Hall.
  apply in_map_iff in Hx. destruct Hx as (l' & <- & Hl').
  apply filter_In in Hl'. apply in_map. tauto.
Qed.

(** X5: no two groups of the dictionary have equal keys, and the groups
    stand in the order in which their first vertex appears: the first
    indices of the groups ascend. The labels and the warnings follow that
    order: there is one label for every group, in the order of the
    groups, and the warnings are those of the groups of two indices or
    more, in the order of the groups. *)
Theorem X5_groups_in_order_of_appearance vs :
  distinct_keys key_eqb (vertex_groups vs) /\
  StronglySorted lt (first_indices (vertex_groups vs)) /\
  (exists ls,
     labels_of vs (Dict.values (vertex_groups vs)) = Some ls /\
     Forall2 (labelled vs) (vertex_groups vs) ls) /\
  (exists ws,
     warnings vs (vertex_groups vs) = Some ws /\
     warned ws = filter (fun l => 1 <? length l)
                        (Dict.values (vertex_groups vs)) /\
     StronglySorted lt (map (hd 0) (warned ws))).
Proof.
  assert (Hsorted : StronglySorted lt (first_indices (vertex_groups vs))).
  { apply group_from_first_indices.
    - intros kv [].
    - constructor.
    - constructor. }
  split; [apply (vertex_groups_grouped vs) |]. split; [exact Hsorted |]. split.
  - apply labels_of_groups. intros k indices Hin.
    apply (@group_range vs k indices Hin).
  - destruct (@warnings_spec vs (vertex_groups vs)) as (ws & Hws & _).
    { intros k l Hin. destruct (@group_range vs k l Hin) as (H1 & _ & H3).
      auto. }
    exists ws. split; [assumption |].
    rewrite (warnings_firsts _ _ Hws). split; [reflexivity |].
    apply sorted_filter_heads. unfold first_indices in Hsorted.
    unfold Dict.values. rewrite map_map. exact Hsorted.
Qed.

(** X6: there are never more groups than vertices, and the duplicate flag
    stays off exactly when there are as many groups as vertices. *)
Theorem X6_group_count vs :
  length (vertex_groups vs) <= length vs /\
  (duplicates_found (vertex_groups vs) = false <->
   length (vertex_groups vs) = length vs).
Proof.
  assert (Hne : forall l, In l (Dict.values (vertex_groups vs)) -> l <> []).
  { intros l Hl. unfold Dict.values in Hl. apply in_map_iff in Hl.
    destruct Hl as ([k l'] & <- & Hin). apply (@group_range vs k l' Hin). }
  destruct (concat_length_nonempty _ Hne) as [Hle Hiff].
  pose proof (Permutation_length (vertex_groups_perm vs)) as Hlen.
  rewrite length_seq in Hlen.
  unfold Dict.values in Hle, Hiff. rewrite length_map in Hle, Hiff.
  fold (Dict.values (vertex_groups vs)) in Hle, Hiff.
  split; [lia |].
  rewrite duplicates_found_false, <- Hiff. rewrite Hlen. split; auto.
Qed.








End GroupingMore.

(* ================================================================== *)
(** * Further facts about the removal of comments *)
(* ================================================================== *)

Module CommentTheory.

Lemma lacks_tail pat c t : lacks pat (c :: t) -> lacks pat t.
Proof. intros H a b ->. apply (H (c :: a) b). reflexivity. Qed.

Lemma lacks_suffix pat a t : lacks pat (a ++ t) -> lacks pat t.
Proof.
  induction a as [| c a IH]; intros H; [assumption |].
  apply IH. eapply lacks_tail. exact H.
Qed.

Lemma sub_nomatch A (m : Re.t A) c r :
  m (c :: r) = [] -> sub_empty m (c :: r) = c :: sub_empty m r.
Proof.
  intros H. unfold sub_empty. cbn [sub_from]. unfold first_match. rewrite H.
  reflexivity.
Qed.

(** Every way the two comment patterns match at the head of a text. *)
Lemma line_comment_in u rest s :
  In (u, rest) (line_comment s) <->
  exists c, s = txt "//" ++ c ++ rest /\ all not_newline c.
Proof.
  unfold line_comment. rewrite in_seq. split.
  - intros (s1 & H1 & H). apply leaves_lit in H1. subst s.
    apply in_seq in H. destruct H as (s2 & H2 & H).
    apply leaves_star in H2. destruct H2 as (c & -> & Hc).
    apply in_ret in H. destruct H as [_ ->]. eauto.
  - intros (c & -> & Hc). exists (c ++ rest). split; [apply leaves_lit; reflexivity |].
    apply in_seq. exists rest. split; [apply leaves_star; eauto |].
    apply in_ret. destruct u. auto.
Qed.

Lemma block_comment_in u rest s :
  In (u, rest) (block_comment s) <->
  exists c, s = txt "/*" ++ c ++ txt "*/" ++ rest.
Proof.
  unfold block_comment. rewrite in_seq. split.
  - intros (s1 & H1 & H). apply leaves_lit in H1. subst s.
    apply in_seq in H. destruct H as (s2 & H2 & H).
    apply leaves_star in H2 || idtac.
    destruct H2 as [c H2]. apply in_star_lazy in H2. destruct H2 as [-> _].
    apply in_lit in H. subst s2. eauto.
  - intros (c & ->). exists (c ++ txt "*/" ++ rest).
    split; [apply leaves_lit; reflexivity |].
    apply in_seq. exists (txt "*/" ++ rest). split.
    + exists c. apply in_star_lazy. split; [reflexivity |].
      clear. induction c; constructor; auto.
    + apply in_lit. reflexivity.
Qed.

(** What the scan does at the head of a text: nothing matches and the
    character is kept, or the first match is dropped. *)
Lemma sub_cases A (m : Re.t A) s :
  (forall s' x rest, In (x, rest) (m s') ->
     exists t, t <> [] /\ s' = t ++ rest) ->
  s = [] \/
  (exists c r, s = c :: r /\ m s = [] /\ sub_empty m s = c :: sub_empty m r) \/
  (exists t rest, s = t ++ rest /\ t <> [] /\ m s <> [] /\
                  sub_empty m s = sub_empty m rest).
Proof.
  intros Hm. destruct s as [| c r]; [left; reflexivity | right].
  destruct (m (c :: r)) as [| [x rest] l] eqn:E.
  - left. exists c, r. split; [reflexivity |]. split; [reflexivity |].
    apply sub_nomatch. assumption.
  - right. destruct (Hm (c :: r) x rest) as (t & Ht & Hs).
    { rewrite E. left. reflexivity. }
    exists t, rest. split; [assumption |]. split; [assumption |].
    split; [discriminate |]. rewrite Hs. apply (@sub_match _ m t x rest Ht).
    rewrite <- Hs. unfold first_match. rewrite E. reflexivity.
Qed.

Lemma line_comment_consumes s' x rest :
  In (x, rest) (line_comment s') -> exists t, t <> [] /\ s' = t ++ rest.
Proof.
  intros H. apply line_comment_in in H. destruct H as (c & -> & _).
  exists (txt "//" ++ c). split; [discriminate |]. rewrite <- app_assoc. reflexivity.
Qed.

Lemma block_comment_consumes s' x rest :
  In (x, rest) (block_comment s') -> exists t, t <> [] /\ s' = t ++ rest.
Proof.
  intros H. apply block_comment_in in H. destruct H as (c & ->).
  exists (txt "/*" ++ c ++ txt "*/"). split; [discriminate |].
  rewrite <- !app_assoc. reflexivity.
Qed.

Lemma nonempty_has_member A (l : list A) : l <> [] -> exists x, In x l.
Proof. destruct l as [| x l]; [congruence |]. intros _. exists x. left. reflexivity. Qed.

(** A pattern that begins with a slash leaves the head of a text that
    begins with something else. *)
Lemma sub_stops_slash A (m : Re.t A) r :
  (forall c r', c <> slash -> m (c :: r') = []) ->
  stops (N.eqb slash) r -> stops (N.eqb slash) (sub_empty m r).
Proof.
  intros Hm Hr. destruct r as [| x r]; [exact I |].
  cbn [stops] in Hr. pose proof Hr as Hx. apply N.eqb_neq in Hx.
  rewrite sub_nomatch; [| apply Hm; congruence].
  cbn [stops]. assumption.
Qed.

Lemma two_slashes_match r : line_comment (slash :: slash :: r) <> [].
Proof.
  intros E.
  assert (Hin : In (tt, r) (line_comment (slash :: slash :: r))).
  { apply line_comment_in. exists []. split; [reflexivity | constructor]. }
  rewrite E in Hin. destruct Hin.
Qed.

Lemma lacks_nil pat : pat <> [] -> lacks pat [].
Proof.
  intros Hp a b H. symmetry in H. apply app_eq_nil in H. destruct H as [_ H].
  apply app_eq_nil in H. tauto.
Qed.

Lemma lacks_slashes_head r :
  lacks (txt "//") (slash :: r) -> stops (N.eqb slash) r.
Proof.
  intros H. destruct r as [| x r]; [exact I |]. cbn [stops].
  apply N.eqb_neq. intros <-. apply (H [] r). reflexivity.
Qed.

Lemma stops_slash_contra b : ~ stops (N.eqb slash) (slash :: b).
Proof. cbn [stops]. rewrite N.eqb_refl. discriminate. Qed.

(** After the first substitution no two slashes stand together. *)
Lemma line_pass_lacks s : lacks (txt "//") (sub_empty line_comment s).
Proof.
  remember (length s) as n eqn:Hn. assert (Hlen : length s <= n) by lia.
  clear Hn. revert s Hlen. induction n as [| n IH]; intros s Hlen.
  - destruct s; [apply lacks_nil; discriminate | simpl in Hlen; lia].
  - destruct (@sub_cases _ line_comment s line_comment_consumes)
      as [-> | [(c & r & -> & Hno & Hout) | (t & rest & -> & Ht & _ & Hout)]].
    + apply lacks_nil. discriminate.
    + rewrite Hout. simpl in Hlen. assert (IHr := IH r ltac:(lia)).
      intros a b Heq. change (txt "//") with [slash; slash] in *.
      destruct a as [| x a]; cbn [app] in Heq; inversion Heq as [[Hc Hr]].
      * subst c.
        assert (Hstop : stops (N.eqb slash) r).
        { destruct r as [| y r]; [exact I |]. cbn [stops]. apply N.eqb_neq.
          intros <-. apply (two_slashes_match r). assumption. }
        apply (@sub_stops_slash _ line_comment r line_comment_no_slash) in Hstop.
        rewrite Hr in Hstop. apply (@stops_slash_contra b Hstop).
      * apply (IHr a b). assumption.
    + rewrite Hout. apply IH. rewrite length_app in Hlen.
      destruct t; [congruence | simpl in Hlen; lia].
Qed.

Lemma lacks_slashes_no_match t :
  lacks (txt "//") t -> forall a b, t = a ++ b -> line_comment b = [].
Proof.
  intros H a b ->. destruct (line_comment b) as [| [u rest] l] eqn:E; [reflexivity |].
  exfalso. assert (Hin : In (u, rest) (line_comment b)) by (rewrite E; left; reflexivity).
  apply line_comment_in in Hin. destruct Hin as (c & -> & _).
  apply (H a (c ++ rest)). reflexivity.
Qed.

Lemma lacks_close_no_match u :
  lacks (txt "*/") u -> forall a b, u = a ++ b -> block_comment b = [].
Proof.
  intros H a b ->. destruct (block_comment b) as [| [x rest] l] eqn:E; [reflexivity |].
  exfalso. assert (Hin : In (x, rest) (block_comment b)) by (rewrite E; left; reflexivity).
  apply block_comment_in in Hin. destruct Hin as (c & ->).
  apply (H (a ++ txt "/*" ++ c) rest). rewrite <- !app_assoc. reflexivity.
Qed.

(** Where the pattern matches nowhere the substitution changes nothing. *)
Lemma sub_identity A (m : Re.t A) t :
  (forall a b, t = a ++ b -> m b = []) -> sub_empty m t = t.
Proof.
  intros H. pose proof (@sub_pass _ m t []) as E.
  rewrite app_nil_r in E. rewrite E; [apply app_nil_r |].
  intros a b Hab _. rewrite app_nil_r. eapply H. eassumption.
Qed.

(** The second substitution brings no two slashes together. *)
Lemma block_pass_lacks_slashes t :
  lacks (txt "//") t -> lacks (txt "//") (sub_empty block_comment t).
Proof.
  remember (length t) as n eqn:Hn. assert (Hlen : length t <= n) by lia.
  clear Hn. revert t Hlen. induction n as [| n IH]; intros t Hlen Ht.
  - destruct t; [apply lacks_nil; discriminate | simpl in Hlen; lia].
  - destruct (@sub_cases _ block_comment t block_comment_consumes)
      as [-> | [(c & r & -> & Hno & Hout) | (u & rest & -> & Hu & _ & Hout)]].
    + apply lacks_nil. discriminate.
    + rewrite Hout. simpl in Hlen.
      assert (IHr := IH r ltac:(lia) (lacks_tail Ht)).
      intros a b Heq. change (txt "//") with [slash; slash] in Heq.
      destruct a as [| x a]; cbn [app] in Heq; inversion Heq as [[Hc Hr]].
      * subst c. pose proof (lacks_slashes_head Ht) as Hstop.
        apply (@sub_stops_slash _ block_comment r block_comment_no_slash) in Hstop.
        rewrite Hr in Hstop. apply (@stops_slash_contra b Hstop).
      * apply (IHr a b). assumption.
    + rewrite Hout. apply IH; [| eapply lacks_suffix; eassumption].
      rewrite length_app in Hlen. destruct u; [congruence | simpl in Hlen; lia].
Qed.

(** After the second substitution no block comment is left. *)
Lemma block_pass_closed t :
  lacks (txt "//") t ->
  forall a b, sub_empty block_comment t = a ++ b -> block_comment b = [].
Proof.
  remember (length t) as n eqn:Hn. assert (Hlen : length t <= n) by lia.
  clear Hn. revert t Hlen. induction n as [| n IH]; intros t Hlen Ht a b Hab.
  - destruct t; [| simpl in Hlen; lia]. symmetry in Hab. apply app_eq_nil in Hab.
    destruct Hab as [_ ->]. reflexivity.
  - destruct (@sub_cases _ block_comment t block_comment_consumes)
      as [-> | [(c & r & -> & Hno & Hout) | (u & rest & -> & Hu & _ & Hout)]].
    + symmetry in Hab. apply app_eq_nil in Hab. destruct Hab as [_ ->]. reflexivity.
    + rewrite Hout in Hab. simpl in Hlen.
      destruct a as [| x a]; cbn [app] in Hab.
      2:{ inversion Hab. apply (IH r ltac:(lia) (lacks_tail Ht) a b). assumption. }
      subst b.
      destruct (block_comment (c :: sub_empty block_comment r))
        as [| [y rest] l] eqn:E; [reflexivity |]. exfalso.
      assert (Hin : In (y, rest) (block_comment (c :: sub_empty block_comment r)))
        by (rewrite E; left; reflexivity).
      apply block_comment_in in Hin. destruct Hin as (cc & Hcc).
      change (txt "/*") with [slash; 42%N] in Hcc. cbn [app] in Hcc.
      inversion Hcc as [[Hc Hr]]. subst c.
      pose proof (lacks_slashes_head Ht) as Hstop.
      destruct r as [| x r']; [discriminate Hr |].
      cbn [stops] in Hstop. pose proof Hstop as Hx. apply N.eqb_neq in Hx.
      rewrite sub_nomatch in Hr; [| apply block_comment_no_slash; congruence].
      inversion Hr as [[Hx42 Hr']]. subst x.
      assert (Hlacks : lacks (txt "*/") r').
      { intros a' b' ->.
        assert (Hin : In (tt, b') (block_comment (slash :: 42%N :: a' ++ txt "*/" ++ b'))).
        { apply block_comment_in. exists a'. reflexivity. }
        assert (E0 : block_comment (slash :: 42%N :: a' ++ txt "*/" ++ b') = [])
          by exact Hno.
        rewrite E0 in Hin. destruct Hin. }
      rewrite (sub_identity block_comment (lacks_close_no_match Hlacks)) in Hr'.
      apply (Hlacks cc rest). assumption.
    + rewrite Hout in Hab. apply (IH rest) with (a := a); try assumption.
      * rewrite length_app in Hlen. destruct u; [congruence | simpl in Hlen; lia].
      * eapply lacks_suffix. eassumption.
Qed.

(** What is left after the removal of comments. *)
Lemma remove_comments_clean s :
  lacks (txt "//") (remove_comments s) /\
  lacks_block_comment (remove_comments s) /\
  remove_comments (remove_comments s) = remove_comments s.
Proof.
  unfold remove_comments.
  pose proof (line_pass_lacks s) as H1.
  pose proof (block_pass_lacks_slashes H1) as H2.
  pose proof (block_pass_closed H1) as H3.
  set (out := sub_empty block_comment (sub_empty line_comment s)) in *.
  split; [assumption |]. split.
  - intros a c b Heq.
    assert (Hin : In (tt, b) (block_comment (txt "/*" ++ c ++ txt "*/" ++ b)))
      by (apply block_comment_in; eauto).
    rewrite (H3 a _ Heq) in Hin. destruct Hin.
  - rewrite (sub_identity line_comment (lacks_slashes_no_match H2)).
    apply sub_identity. intros a b Hab. apply (H3 a b). assumption.
Qed.

End CommentTheory.
Import CommentTheory.

(* ================================================================== *)
(** * Further properties: the parser *)
(* ================================================================== *)

Module ParseMore.

Lemma well_commented_sample : well_commented commented_pieces.
Proof.
  cbn [well_commented commented_pieces].
  repeat split; try exact I;
    intros H; vm_compute in H; repeat destruct H as [H | H]; try discriminate H;
    try contradiction.
Qed.

(** X1: when the plain text holds no slash, no line comment holds a line
    feed before its end, and no block comment holds a slash or is followed
    by one, the two substitutions take every comment away and leave the
    plain text as it is (a line comment leaves its line feed). *)
Theorem X1_comments_removed ps :
  well_commented ps -> remove_comments (render ps) = stripped ps.
Proof. apply remove_comments_pieces. Qed.

Lemma X1_comments_removed_witness :
  remove_comments (render commented_pieces) = stripped commented_pieces.
Proof. apply X1_comments_removed. exact well_commented_sample. Defined.

(** X2: whatever the input, the text left by the two substitutions holds
    no two slashes in a row and no complete block comment, and removing
    comments from it again changes nothing. *)
Theorem X2_remove_comments_idempotent s :
  lacks (txt "//") (remove_comments s) /\
  lacks_block_comment (remove_comments s) /\
  remove_comments (remove_comments s) = remove_comments s.
Proof. apply remove_comments_clean. Qed.

(** X3: at any place the triplet pattern matches in one way at most: the
    order in which the alternatives of the pattern are tried has no
    influence on the groups or on where the match ends. *)
Theorem X3_triplet_match_unambiguous s r1 r2 :
  In r1 (coord_pattern s) -> In r2 (coord_pattern s) -> r1 = r2.
Proof.
  destruct r1 as [xyz1 rest1], r2 as [xyz2 rest2]. intros H1 H2.
  apply coord_pattern_in in H1, H2.
  destruct H1 as (t1 & Ht1 & E1), H2 as (t2 & Ht2 & E2). subst s.
  destruct (@triplet_unique _ _ _ _ _ _ Ht1 Ht2 E2) as (_ & -> & ->).
  reflexivity.
Qed.

Lemma X3_triplet_match_unambiguous_witness :
  In (txt "-1.5e-3", txt "+2", txt ".5", txt " rest")
     (coord_pattern (txt "( -1.5e-3  +2 .5 ) rest")) /\
  (txt "-1.5e-3", txt "+2", txt ".5", txt " rest")
  = (txt "-1.5e-3", txt "+2", txt ".5", txt " rest").
Proof.
  split; [vm_compute; left; reflexivity |].
  apply (@X3_triplet_match_unambiguous (txt "( -1.5e-3  +2 .5 ) rest"));
    vm_compute; left; reflexivity.
Defined.

(** X4: the conversion of the matches to numbers never fails and gives one
    row for every match, so the parser raises nothing but its own two
    errors. *)
Theorem X4_conversion_never_fails :
  (forall span,
     exists vs, floats (findall coord_pattern span) = Some vs /\
                length vs = length (findall coord_pattern span)) /\
  (forall content e,
     parse_blockmesh_dict content = Raise e ->
     e = ValueError no_section_msg \/ e = ValueError no_coords_msg).
Proof.
  split; [apply floats_findall |].
  intros content e H.
  destruct (search vertices_section (remove_comments content))
    as [[span rest] |] eqn:E.
  - destruct (ParseClaims.parse_with_span content E) as (vs & _ & _ & Hparse).
    rewrite Hparse in H. destruct vs; inversion H. auto.
  - unfold parse_blockmesh_dict in H. rewrite E in H. inversion H. auto.
Qed.

Lemma exists_first_close close u :
  (exists b r, u = b ++ close ++ r) ->
  exists b r, u = b ++ close ++ r /\ first_close close b r.
Proof.
  induction u as [| c u IH]; intros (b & r & Hu).
  - exists b, r. split; [assumption |].
    symmetry in Hu. apply app_eq_nil in Hu. destruct Hu as [-> _].
    intros b1 r1 _. simpl. lia.
  - destruct (starts_with close (c :: u)) eqn:E.
    + apply ParseClaims.starts_with_iff in E. destruct E as [r0 E].
      exists [], r0. split; [assumption |]. intros b1 r1 _. simpl. lia.
    + destruct b as [| c' b].
      * exfalso. assert (Ht : starts_with close (c :: u) = true)
          by (apply ParseClaims.starts_with_iff; exists r; assumption).
        congruence.
      * cbn [app] in Hu. inversion Hu. subst c'.
        destruct IH as (b0 & r0 & Hu0 & Hfirst); [eauto |].
        exists (c :: b0), r0. split; [cbn [app]; congruence |].
        intros b1 r1 Heq. destruct b1 as [| c1 b1].
        -- exfalso. assert (Ht : starts_with close (c :: u) = true).
           { apply ParseClaims.starts_with_iff. exists r1.
             cbn [app] in Heq. rewrite Heq. cbn [app]. congruence. }
           congruence.
        -- cbn [app] in Heq. inversion Heq. simpl. apply le_n_S.
           eapply Hfirst. eassumption.
Qed.

(** What the section pattern reports at the head of a text is a section
    whose body ends at the first [");"]. *)
Lemma first_match_section s body tail :
  first_match vertices_section s = Some (body, tail) ->
  exists ws, s = txt "vertices" ++ ws ++ txt "(" ++ body ++ txt ");" ++ tail /\
             all is_space ws /\ first_close (txt ");") body tail.
Proof.
  intros H.
  assert (Hin : In (body, tail) (vertices_section s)).
  { unfold first_match in H. destruct (vertices_section s); [discriminate |].
    inversion H. left. reflexivity. }
  apply vertices_section_in in Hin. destruct Hin as (ws & Hws & Hs).
  destruct (@exists_first_close (txt ");") (body ++ txt ");" ++ tail))
    as (b0 & r0 & Hu & Hfirst); [eauto |].
  pose proof (vertices_section_first Hws Hfirst) as Hm.
  rewrite <- Hu, <- Hs, H in Hm. inversion Hm. subst b0 r0.
  exists ws. auto.
Qed.

(** X12: the span the parser works on is found as follows and in no other
    way: it begins after the first place where a complete section
    ([vertices], blanks, an open parenthesis and later [");"]) begins, and
    it ends before the first [");"] after that parenthesis. *)
Theorem X12_section_found s body tail :
  search vertices_section s = Some (body, tail) <->
  exists pre ws,
    s = pre ++ txt "vertices" ++ ws ++ txt "(" ++ body ++ txt ");" ++ tail /\
    all is_space ws /\ first_close (txt ");") body tail /\
    forall a b, pre = a ++ b -> b <> [] ->
      ~ section_at (b ++ txt "vertices" ++ ws ++ txt "(" ++ body
                    ++ txt ");" ++ tail).
Proof.
  split.
  - intros H. apply search_Some in H. destruct H as (pre & b0 & -> & Hm & Hno).
    apply first_match_section in Hm. destruct Hm as (ws & -> & Hws & Hfirst).
    exists pre, ws. repeat split; try assumption.
    intros a b Hab Hb (ws' & body' & tail' & Heq & Hws').
    assert (Hin : In (body', tail')
              (vertices_section (b ++ txt "vertices" ++ ws ++ txt "(" ++ body
                                 ++ txt ");" ++ tail))).
    { apply vertices_section_in. eauto. }
    rewrite (Hno a b Hab Hb) in Hin. destruct Hin.
  - intros (pre & ws & -> & Hws & Hfirst & Hno). rewrite search_skip.
    + apply search_here. apply vertices_section_first; assumption.
    + intros a b Hab Hb.
      destruct (vertices_section (b ++ txt "vertices" ++ ws ++ txt "(" ++ body
                                  ++ txt ");" ++ tail))
        as [| [body' tail'] l] eqn:E; [reflexivity |].
      exfalso. apply (Hno a b Hab Hb).
      assert (Hin : In (body', tail')
                (vertices_section (b ++ txt "vertices" ++ ws ++ txt "(" ++ body
                                   ++ txt ");" ++ tail)))
        by (rewrite E; left; reflexivity).
      apply vertices_section_in in Hin. destruct Hin as (ws' & Hws' & Heq).
      exists ws', body', tail'. auto.
Qed.

End ParseMore.

(* ================================================================== *)
(** * Further properties: main *)
(* ================================================================== *)

Module MainMore.
Import Main.



End MainMore.

(* ================================================================== *)
(** * Further properties: the texts of the labels *)
(* ================================================================== *)

Module LabelMore.

Lemma string_of_uint_digits d : all_digits (NilEmpty.string_of_uint d).
Proof. induction d; simpl; auto. Qed.

Lemma str_injective a b : str a = str b -> a = b.
Proof.
  unfold str. intros H.
  assert (E : Some (Nat.to_uint a) = Some (Nat.to_uint b)).
  { rewrite <- !NilEmpty.usu. rewrite H. reflexivity. }
  inversion E as [E']. rewrite <- (Unsigned.of_to a), <- (Unsigned.of_to b).
  rewrite E'. reflexivity.
Qed.

Lemma digits_prefix_unique (a a' b b' : string) :
  all_digits a -> all_digits a' -> ends_number b -> ends_number b' ->
  (a ++ b)%string = (a' ++ b')%string -> a = a'.
Proof.
  revert a'. induction a as [| c a IH]; intros a' Ha Ha' Hb Hb' Heq.
  - destruct a' as [| c' a']; [reflexivity |]. simpl in Heq. subst b.
    simpl in Hb. destruct Ha' as [Hc _]. congruence.
  - destruct a' as [| c' a'].
    + simpl in Heq. subst b'. simpl in Hb'. destruct Ha as [Hc _]. congruence.
    + simpl in Heq. inversion Heq. subst c'. f_equal.
      destruct Ha as [_ Ha], Ha' as [_ Ha']. eapply IH; eauto.
Qed.

Lemma append_empty (s : string) : (s ++ "")%string = s.
Proof. induction s as [| c s IH]; simpl; [reflexivity | rewrite IH; reflexivity]. Qed.

(** A label text begins with the first index, and a comma or the end
    follows. *)
Lemma label_text_split i r :
  exists t, String.concat "," (map str (i :: r)) = (str i ++ t)%string /\
            ends_number t.
Proof.
  destruct r as [| j r].
  - exists ""%string. simpl. rewrite append_empty. split; [reflexivity | exact I].
  - eexists. cbn [map String.concat]. split; [reflexivity |]. reflexivity.
Qed.

Lemma label_text_first i r j r' :
  String.concat "," (map str (i :: r)) = String.concat "," (map str (j :: r')) ->
  i = j.
Proof.
  intros H. destruct (label_text_split i r) as (t & Ht & Hend).
  destruct (label_text_split j r') as (t' & Ht' & Hend').
  rewrite Ht, Ht' in H. apply str_injective.
  apply (@digits_prefix_unique (str i) (str j) t t');
    [apply string_of_uint_digits | apply string_of_uint_digits
    | exact Hend | exact Hend' | exact H].
Qed.

Lemma sorted_nth (l : list nat) a b x y :
  StronglySorted lt l -> a < b ->
  nth_error l a = Some x -> nth_error l b = Some y -> x < y.
Proof.
  intros H. revert a b. induction H as [| h l Hl IH Hh]; intros a b Hab Ha Hb.
  - destruct a; discriminate.
  - destruct b as [| b]; [lia |]. simpl in Hb. destruct a as [| a]; simpl in Ha.
    + inversion Ha. subst. rewrite Forall_forall in Hh. apply Hh.
      eapply nth_error_In. eassumption.
    + apply (IH a b); [lia | assumption | assumption].
Qed.

(** X14: no two labels of a view carry the same text: the text of a label
    begins with the first index of its group, and the first indices of the
    groups differ. *)
Theorem X14_label_texts_differ vs :
  vs <> [] ->
  exists out,
    create_interactive_viewer vs = Ok out /\
    forall a b la lb,
      a < b -> nth_error (labels out) a = Some la ->
      nth_error (labels out) b = Some lb ->
      label_text la <> label_text lb.
Proof.
  intros Hne. destruct (viewer_ok Hne) as (ls & Hrun & Hall).
  eexists. split; [exact Hrun |]. cbn [labels].
  intros a b la lb Hab Ha Hb Htext.
  destruct (@GroupingMore.Forall2_nth_right _ _ _ _ _ a la Hall Ha)
    as ([ka ia] & Hga & Hla).
  destruct (@GroupingMore.Forall2_nth_right _ _ _ _ _ b lb Hall Hb)
    as ([kb ib] & Hgb & Hlb).
  destruct Hla as (i0 & ra & Hia & _ & _ & _ & Hta & _).
  destruct Hlb as (j0 & rb & Hib & _ & _ & _ & Htb & _).
  simpl in Hia, Hib, Hta, Htb. subst ia ib.
  rewrite Hta, Htb in Htext. apply label_text_first in Htext. subst j0.
  assert (Hsorted : StronglySorted lt (first_indices (vertex_groups vs))).
  { apply group_from_first_indices; [intros kv [] | constructor | constructor]. }
  assert (Hx : nth_error (first_indices (vertex_groups vs)) a = Some i0).
  { unfold first_indices. rewrite nth_error_map, Hga. reflexivity. }
  assert (Hy : nth_error (first_indices (vertex_groups vs)) b = Some i0).
  { unfold first_indices. rewrite nth_error_map, Hgb. reflexivity. }
  pose proof (@sorted_nth _ a b i0 i0 Hsorted Hab Hx Hy). lia.
Qed.

Lemma X14_label_texts_differ_witness :
  exists out,
    create_interactive_viewer ten = Ok out /\
    forall a b la lb,
      a < b -> nth_error (labels out) a = Some la ->
      nth_error (labels out) b = Some lb ->
      label_text la <> label_text lb.
Proof. apply (@X14_label_texts_differ ten). discriminate. Defined.

End LabelMore.

(* ================================================================== *)
(** * Further properties: the keys of the vertices that were parsed *)
(* ================================================================== *)

Module KeysMore.

Lemma of_decimal_not_nan neg n e : of_decimal neg n e <> S754_nan.
Proof.
  unfold of_decimal. destruct n as [| m | m]; try discriminate.
  destruct (0 <=? e)%Z eqn:He; [apply binary_round_not_nan |].
  apply Z.leb_gt in He.
  assert (Hpow : (0 < 10 ^ (- e))%Z) by (apply Z.pow_pos_nonneg; lia).
  destruct (10 ^ (- e))%Z as [| d | d] eqn:Hd; try lia.
  pose proof (div_core_nonneg m 0 d 0) as Hq.
  destruct (SFdiv_core_binary _ _ _ _ _ _) as [[q e'] l]. simpl in Hq.
  apply binary_round_aux_not_nan. assumption.
Qed.

(** [float] gives a number, never a [nan]. *)
Lemma float_not_nan s x : float s = Some x -> x <> S754_nan.
Proof.
  unfold float. destruct (read_sign s) as [neg s1].
  destruct (span is_digit s1) as [ip s2].
  destruct (match s2 with
            | [] => ([], s2)
            | c :: r => if is_dot c then span is_digit r else ([], s2)
            end) as [fp s3].
  destruct (ip ++ fp); [discriminate |].
  destruct (read_exponent s3); [| discriminate].
  intros H. inversion H. apply of_decimal_not_nan.
Qed.

Lemma floats_no_nan ms vs : floats ms = Some vs -> Forall no_nan vs.
Proof.
  revert vs. induction ms as [| [[x y] z] ms IH]; intros vs H.
  - inversion H. constructor.
  - cbn [floats float3] in H.
    destruct (float x) as [a |] eqn:Ha; [| discriminate].
    destruct (float y) as [b |] eqn:Hb; [| discriminate].
    destruct (float z) as [c |] eqn:Hc; [| discriminate].
    destruct (floats ms) as [vs' |]; [| discriminate].
    inversion H. constructor; [| apply IH; reflexivity].
    repeat split; eapply float_not_nan; eassumption.
Qed.

Lemma parse_no_nan content vs :
  parse_blockmesh_dict content = Ok vs -> Forall no_nan vs.
Proof.
  unfold parse_blockmesh_dict.
  destruct (search vertices_section (remove_comments content))
    as [[span rest] |]; [| discriminate].
  destruct (findall coord_pattern span) as [| m ms]; [discriminate |].
  destruct (floats (m :: ms)) as [vs' |] eqn:E; [| discriminate].
  intros H. inversion H. subst. eapply floats_no_nan. eassumption.
Qed.

(** The key of a vertex without a [nan] equals itself. *)
Lemma vertex_key_refl v :
  no_nan v -> key_eqb (vertex_key v) (vertex_key v) = true.
Proof.
  destruct v as [[x y] z]. intros (Hx & Hy & Hz). unfold vertex_key, key_eqb.
  rewrite !andb_true_iff.
  repeat split; apply eqb_refl; apply quantize_not_nan; assumption.
Qed.

(** X15: no coordinate that the parser returns is a [nan], each is a
    finite number, a zero or an infinity; so the key of each vertex of the
    array equals itself, and two vertices of the array, of the same index
    or not, are in the same group exactly when their keys are equal. *)
Theorem X15_parsed_keys content vs :
  parse_blockmesh_dict content = Ok vs ->
  Forall no_nan vs /\
  (forall v, In v vs -> key_eqb (vertex_key v) (vertex_key v) = true) /\
  (forall i j vi vj,
     nth_error vs i = Some vi -> nth_error vs j = Some vj ->
     (same_group (vertex_groups vs) i j <->
      key_eqb (vertex_key vi) (vertex_key vj) = true)).
Proof.
  intros H. pose proof (parse_no_nan _ H) as Hall.
  split; [assumption |].
  assert (Hrefl : forall v, In v vs ->
                    key_eqb (vertex_key v) (vertex_key v) = true).
  { intros v Hv. apply vertex_key_refl. rewrite Forall_forall in Hall. auto. }
  split; [assumption |].
  intros i j vi vj Hi Hj. rewrite (@same_group_iff vs i j vi vj Hi Hj). split.
  - intros [-> | Hk]; [| assumption].
    rewrite Hi in Hj. inversion Hj. subst vj. apply Hrefl.
    eapply nth_error_In. eassumption.
  - auto.
Qed.

Lemma X15_parsed_keys_witness :
  Forall no_nan merged /\
  (forall v, In v merged -> key_eqb (vertex_key v) (vertex_key v) = true) /\
  (forall i j vi vj,
     nth_error merged i = Some vi -> nth_error merged j = Some vj ->
     (same_group (vertex_groups merged) i j <->
      key_eqb (vertex_key vi) (vertex_key vj) = true)).
Proof.
  apply (@X15_parsed_keys
           (txt "vertices ( (0.1234555 0 0) (0.1234565 0 0) );")).
  vm_compute. reflexivity.
Defined.

End KeysMore.
